(** * YouTube to Spotify playlist migrator: title parsing, channel cleaning,
      match scoring and the per-song pipeline of [youtube_to_spotify.py].

    Python values are embedded as follows.
    - [str] is a list of Unicode code points ([pystr]); literals are written
      with [py "..."].
    - [float] is the kernel's binary64 float ([PrimFloat.float]).
    - [int] is [Z].
    - [re] patterns are small programs ([list atom]) run by a backtracking
      matcher with the priorities of Python's engine (greedy: longest first,
      lazy: shortest first, alternatives left to right).
    - Code that raises is embedded with an explicit [Raised] outcome; the
      network and the [fuzzywuzzy] library are collaborators of a [World]. *)

From Stdlib Require Import NArith ZArith List String Ascii Bool Lia Floats
  DecimalString.
From stdpp Require Import base list.

Set Warnings "-inexact-float".

(** ** Python strings *)

Module PyStr.

Definition pystr := list N.

Fixpoint py (s : string) : pystr :=
  match s with
  | EmptyString => []
  | String a s' => N_of_ascii a :: py s'
  end.

(** The double quote character, [chr(34)]. *)
Definition dq : N := 34%N.

Definition truthy (s : pystr) : bool :=
  match s with [] => false | _ :: _ => true end.

Definition str_eqb (a b : pystr) : bool := bool_decide (a = b).

(** [str.isspace] on one code point; also the class [\s] of [re] on [str]
    patterns (both are [Py_UNICODE_ISSPACE]). *)
Definition isspace (c : N) : bool :=
  ((9 <=? c) && (c <=? 13) || (28 <=? c) && (c <=? 32) || (c =? 133)
   || (c =? 160) || (c =? 5760) || (8192 <=? c) && (c <=? 8202)
   || (c =? 8232) || (c =? 8233) || (c =? 8239) || (c =? 8287)
   || (c =? 12288))%N.

Fixpoint lstrip (s : pystr) : pystr :=
  match s with
  | c :: s' => if isspace c then lstrip s' else s
  | [] => []
  end.

Definition rstrip (s : pystr) : pystr := rev (lstrip (rev s)).

(** [s.strip()] *)
Definition strip (s : pystr) : pystr := rstrip (lstrip s).

(** [s.endswith(suffix)] *)
Definition endswith (s suffix : pystr) : bool :=
  bool_decide (suffix `suffix_of` s).

(** [s[:-n]] for [n > 0]. *)
Definition drop_last (n : nat) (s : pystr) : pystr :=
  take (length s - n) s.

(** [s.startswith(prefix)] *)
Fixpoint startswith (s prefix : pystr) : bool :=
  match prefix, s with
  | [], _ => true
  | p :: prefix', c :: s' => (p =? c)%N && startswith s' prefix'
  | _ :: _, [] => false
  end.

(** [needle in hay] *)
Fixpoint contains (needle hay : pystr) : bool :=
  startswith hay needle
  || match hay with
     | [] => false
     | _ :: hay' => contains needle hay'
     end.

(** [s[b:e]] for [0 <= b <= e], on strings and lists. *)
Definition slice {A} (b e : nat) (s : list A) : list A :=
  take (e - b) (drop b s).

(** A string without white space at either end. *)
Definition trimmed (s : pystr) : Prop :=
  (forall c y, s = c :: y -> isspace c = false)
  /\ (forall c y, s = y ++ [c] -> isspace c = false).

End PyStr.
Export PyStr.

(** ** The [re] module, as far as the program uses it *)

Module Re.

(** Sets of characters one pattern position accepts. *)
Inductive cset :=
| CAny                    (* [.] : anything but a newline *)
| CSpace                  (* [\s] *)
| CLit (c : N)            (* a literal character *)
| COneOf (cs : list N)    (* [[...]] of literal characters *)
| CRanges (rs : list (N * N)).
                          (* [[a-z...]] of ranges (in patterns matched
                             without [re.IGNORECASE]) *)

Inductive atom :=
| Chr (cs : cset)                               (* one character *)
| Rep (cs : cset) (min : nat) (greedy : bool)   (* [x*] [x+] [x*?] [x+?] *)
| Alt (alts : list pystr)                       (* [lit1|lit2|...] *)
| Open (i : nat)                                (* [(] of group [i] *)
| Close (i : nat)                               (* [)] of group [i] *)
| Bol                                           (* [^] *)
| Eol.                                          (* [$] *)

Definition ascii_lower (c : N) : N :=
  if ((65 <=? c) && (c <=? 90))%N then (c + 32)%N else c.

(** A literal under [re.IGNORECASE]: the characters whose lower case is the
    literal's, and the engine's extra equivalents of i, s and k. *)
Definition lit_match (ignorecase : bool) (l c : N) : bool :=
  if ignorecase then
    ((ascii_lower c =? ascii_lower l)
     || (ascii_lower l =? 105) && ((c =? 304) || (c =? 305))
     || (ascii_lower l =? 115) && (c =? 383)
     || (ascii_lower l =? 107) && (c =? 8490))%N
  else (c =? l)%N.

Definition cset_mem (ignorecase : bool) (cs : cset) (c : N) : bool :=
  match cs with
  | CAny => negb (c =? 10)%N
  | CSpace => isspace c
  | CLit l => lit_match ignorecase l c
  | COneOf ls => existsb (fun l => lit_match ignorecase l c) ls
  | CRanges rs => existsb (fun r => (fst r <=? c)%N && (c <=? snd r)%N) rs
  end.

(** The matcher's state: position in the subject, what is left of it, the
    groups opened so far and the spans of the closed ones. *)
Record mstate := MState {
  pos : nat;
  rest : pystr;
  opened : list (nat * nat);
  spans : list (nat * (nat * nat))
}.

Definition lookup_nat {A} (i : nat) (l : list (nat * A)) : option A :=
  snd <$> find (fun p => Nat.eqb (fst p) i) l.

Definition first_some {A} (a : option A) (b : option A) : option A :=
  match a with Some r => Some r | None => b end.

Section Matcher.
Variable ignorecase : bool.

(** [min] or more characters of [p]; [k] runs what follows in the pattern. *)
Fixpoint rep (p : N -> bool) (greedy : bool) (k : nat -> pystr -> option mstate)
    (min : nat) (i : nat) (s : pystr) {struct s} : option mstate :=
  match s with
  | [] => if Nat.eqb min 0 then k i [] else None
  | c :: s' =>
      if negb (Nat.eqb min 0) then
        if p c then rep p greedy k (Nat.pred min) (S i) s' else None
      else if greedy then
        match (if p c then rep p greedy k 0 (S i) s' else None) with
        | Some r => Some r
        | None => k i s
        end
      else
        match k i s with
        | Some r => Some r
        | None => if p c then rep p greedy k 0 (S i) s' else None
        end
  end.

(** One literal alternative, character by character. *)
Fixpoint lits (l : pystr) (k : nat -> pystr -> option mstate)
    (i : nat) (s : pystr) : option mstate :=
  match l with
  | [] => k i s
  | x :: l' =>
      match s with
      | c :: s' => if lit_match ignorecase x c then lits l' k (S i) s' else None
      | [] => None
      end
  end.

Fixpoint run (pat : list atom) (st : mstate) : option mstate :=
  match pat with
  | [] => Some st
  | a :: pat' =>
      let k i s := run pat' (MState i s (opened st) (spans st)) in
      match a with
      | Chr cs =>
          match rest st with
          | c :: s' => if cset_mem ignorecase cs c then k (S (pos st)) s' else None
          | [] => None
          end
      | Rep cs min greedy =>
          rep (cset_mem ignorecase cs) greedy k min (pos st) (rest st)
      | Alt alts =>
          fold_right (fun l r => first_some (lits l k (pos st) (rest st)) r)
                     None alts
      | Open g =>
          run pat' (MState (pos st) (rest st) ((g, pos st) :: opened st) (spans st))
      | Close g =>
          match lookup_nat g (opened st) with
          | Some b =>
              run pat' (MState (pos st) (rest st) (opened st)
                               ((g, (b, pos st)) :: spans st))
          | None => None
          end
      | Bol => if Nat.eqb (pos st) 0 then run pat' st else None
      | Eol =>
          match rest st with
          | [] => run pat' st
          | [c] => if (c =? 10)%N then run pat' st else None
          | _ => None
          end
      end
  end.

(** A match of [pat] starting at position [i], where [s] is what the subject
    has from [i] on. *)
Definition match_at (pat : list atom) (i : nat) (s : pystr) : option mstate :=
  run pat (MState i s [] []).

(** [re.sub(pat, repl, text)] for a [repl] without group references: the
    subject is scanned from the left; [skip] counts the characters of the
    last match that are still to be dropped.  A match is replaced where it
    starts.  (No pattern of this program matches the empty string; an empty
    match is left as no match.) *)
Fixpoint sub_go (pat : list atom) (repl : pystr) (skip i : nat) (s : pystr)
    : pystr :=
  match s with
  | [] => []
  | c :: s' =>
      match skip with
      | S n => sub_go pat repl n (S i) s'
      | O =>
          match match_at pat i s with
          | Some m =>
              if Nat.ltb i (pos m)
              then repl ++ sub_go pat repl (pos m - i - 1) (S i) s'
              else c :: sub_go pat repl 0 (S i) s'
          | None => c :: sub_go pat repl 0 (S i) s'
          end
      end
  end.

Definition sub (pat : list atom) (repl text : pystr) : pystr :=
  sub_go pat repl 0 0 text.

(** The first position from [i] on where [pat] matches. *)
Fixpoint search_go (pat : list atom) (i : nat) (s : pystr) : option mstate :=
  match match_at pat i s with
  | Some m => Some m
  | None =>
      match s with
      | [] => None
      | _ :: s' => search_go pat (S i) s'
      end
  end.

End Matcher.

Definition ngroups (pat : list atom) : nat :=
  length (List.filter (fun a => match a with Open _ => true | _ => false end) pat).

(** [m.groups()] of a match on [text]: the text of groups 1, 2, ... *)
Definition groups (pat : list atom) (text : pystr) (m : mstate) : list pystr :=
  map (fun g => match lookup_nat g (spans m) with
                | Some (b, e) => slice b e text
                | None => []
                end)
      (seq 1 (ngroups pat)).

(** [re.match(pat, text, flags)]: a match at the start of [text]. *)
Definition re_match (ignorecase : bool) (pat : list atom) (text : pystr)
    : option (list pystr) :=
  groups pat text <$> match_at ignorecase pat 0 text.

(** What one atom can do to a state, whatever the order in which the matcher
    tries the possibilities. *)
Definition atom_reach (ignorecase : bool) (a : atom) (st st' : mstate) : Prop :=
  match a with
  | Chr cs =>
      exists c s', rest st = c :: s' /\ cset_mem ignorecase cs c = true
        /\ st' = MState (S (pos st)) s' (opened st) (spans st)
  | Rep cs min _ =>
      exists n, min <= n <= length (rest st)
        /\ forallb (cset_mem ignorecase cs) (take n (rest st)) = true
        /\ st' = MState (pos st + n) (drop n (rest st)) (opened st) (spans st)
  | Alt alts =>
      exists l, In l alts /\ length l <= length (rest st)
        /\ st' = MState (pos st + length l) (drop (length l) (rest st))
                        (opened st) (spans st)
  | Open g =>
      st' = MState (pos st) (rest st) ((g, pos st) :: opened st) (spans st)
  | Close g =>
      exists b, lookup_nat g (opened st) = Some b
        /\ st' = MState (pos st) (rest st) (opened st)
                        ((g, (b, pos st)) :: spans st)
  | Bol => pos st = 0 /\ st' = st
  | Eol => (rest st = [] \/ rest st = [10%N]) /\ st' = st
  end.

(** The states a pattern can end in. *)
Fixpoint reach (ignorecase : bool) (pat : list atom) (st st' : mstate) : Prop :=
  match pat with
  | [] => st' = st
  | a :: pat' =>
      exists st1, atom_reach ignorecase a st st1 /\ reach ignorecase pat' st1 st'
  end.

(** Atoms that consume characters and leave the groups alone. *)
Definition consumes_only (a : atom) : bool :=
  match a with
  | Chr _ | Rep _ _ _ | Alt _ => true
  | _ => false
  end.

(** [re.search(pat, text)]: the leftmost match. *)
Definition re_search (ignorecase : bool) (pat : list atom) (text : pystr)
    : option (list pystr) :=
  groups pat text <$> search_go ignorecase pat 0 text.

End Re.
Export Re.

(** ** [TitleParser] *)

Module TitleParser.

(** A pattern keeps its source text next to its program: [parse_title] asks
    whether the text contains [by]. *)
Record pattern := Pattern { source : pystr; prog : list atom }.

Definition star cs := Rep cs 0 true.
Definition plus cs := Rep cs 1 true.
Definition plus_lazy cs := Rep cs 1 false.
Definition star_lazy cs := Rep cs 0 false.
Definition lit (s : string) : list atom := map (fun c => Chr (CLit c)) (py s).

(** The pattern [^(.+?)<sep>(.+)$]. *)
Definition two_sides (sep : list atom) : list atom :=
  [Bol; Open 1; plus_lazy CAny; Close 1] ++ sep
  ++ [Open 2; plus CAny; Close 2; Eol].

(** [self.patterns] *)
Definition patterns : list pattern :=
  [ (* Artist - Song *)
    Pattern (py "^(.+?)\s*-\s*(.+)$")
            (two_sides ([star CSpace] ++ lit "-" ++ [star CSpace]));
    (* Artist: Song *)
    Pattern (py "^(.+?)\s*:\s*(.+)$")
            (two_sides ([star CSpace] ++ lit ":" ++ [star CSpace]));
    (* Song by Artist *)
    Pattern (py "^(.+?)\s+by\s+(.+)$")
            (two_sides ([plus CSpace] ++ lit "by" ++ [plus CSpace]));
    (* Artist | Song *)
    Pattern (py "^(.+?)\s*\|\s*(.+)$")
            (two_sides ([star CSpace] ++ lit "|" ++ [star CSpace]));
    (* Artist "Song" *)
    Pattern (py "^(.+?)\s*[" ++ [dq] ++ py "\u201c](.+?)[" ++ [dq] ++ py "\u201d]$")
            [Bol; Open 1; plus_lazy CAny; Close 1; star CSpace;
             Chr (COneOf [dq; 8220%N]);
             Open 2; plus_lazy CAny; Close 2;
             Chr (COneOf [dq; 8221%N]); Eol] ].

(** The four substitutions of [clean_text]. *)
Definition re_brackets : list atom := lit "[" ++ [star_lazy CAny] ++ lit "]".
Definition re_parens : list atom := lit "(" ++ [star_lazy CAny] ++ lit ")".
Definition re_feat : list atom :=
  [Open 1; Alt [py "feat."; py "ft."; py "featuring"]; Close 1;
   plus CSpace; plus CAny].
Definition re_spaces : list atom := [plus CSpace].

Definition clean_text (text : pystr) : pystr :=
  let text := sub false re_brackets [] text in
  let text := sub false re_parens [] text in
  let text := sub true re_feat [] text in
  let text := strip (sub false re_spaces (py " ") text) in
  text.

(** The [for] loop of [parse_title] over the patterns that are left. *)
Fixpoint parse_loop (pats : list pattern) (title : pystr) : pystr * pystr :=
  match pats with
  | [] => ([], title)
  | p :: pats' =>
      match re_match true (prog p) title with
      | Some [g0; g1] =>
          if contains (py "by") (source p)
          then (strip g1, strip g0)
          else (strip g0, strip g1)
      | _ => parse_loop pats' title
      end
  end.

(** [parse_title(title)]: the pair (artist, song). *)
Definition parse_title (title : pystr) : pystr * pystr :=
  parse_loop patterns (clean_text title).

(** Pattern [p] does not match [text]. *)
Definition no_match (text : pystr) (p : pattern) : Prop :=
  re_match true (prog p) text = None.

End TitleParser.
Export TitleParser.

(** ** [PlaylistMigrator._clean_channel_name] *)

Module ChannelName.

Definition suffixes_to_remove : list pystr :=
  map py ["Official"; "OFFICIAL"; "Records"; "RECORDS"; "Music"; "MUSIC";
          "Channel"; "CHANNEL"; "TV"; "VEVO"; "vevo"]%string.

(** One turn of the loop over the suffixes. *)
Definition remove_suffix (cleaned suffix : pystr) : pystr :=
  if endswith cleaned (py " " ++ suffix)
  then drop_last (length (py " " ++ suffix)) cleaned
  else if endswith cleaned suffix
  then drop_last (length suffix) cleaned
  else cleaned.

Definition _clean_channel_name (channel : pystr) : pystr :=
  if negb (truthy channel) then []
  else strip (fold_left remove_suffix suffixes_to_remove channel).

(** No two different suffixes of the list end one another: a string ends
    with at most one of them. *)
Definition incomparable (suffixes : list pystr) : bool :=
  forallb (fun t =>
    forallb (fun t' => str_eqb t t' || negb (endswith t t')) suffixes)
    suffixes.

End ChannelName.
Export ChannelName.

(** ** Python floats and their formatting *)

Module PyFloat.

(** [float(z)] for an [int]: the nearest binary64 value. *)
Definition float_of_int (z : Z) : float :=
  SF2Prim (binary_normalize prec emax z 0 false).

(** [x >= y] *)
Definition geb (x y : float) : bool := (y <=? x)%float.

(** The integer nearest to [n / d], ties to the even one. *)
Definition div_half_even (n d : Z) : Z :=
  let q := (n / d)%Z in
  let r := (n mod d)%Z in
  match (2 * r ?= d)%Z with
  | Lt => q
  | Gt => (q + 1)%Z
  | Eq => if Z.even q then q else (q + 1)%Z
  end.

Definition digits (z : Z) : pystr :=
  py (NilZero.string_of_uint (N.to_uint (Z.to_N z))).

(** [f"{x:.2f}"]: the decimal with two places nearest to the exact value. *)
Definition format_2f (x : float) : pystr :=
  match Prim2SF x with
  | S754_nan => py "nan"
  | S754_infinity s => if s then py "-inf" else py "inf"
  | S754_zero s => if s then py "-0.00" else py "0.00"
  | S754_finite s m e =>
      let hundredths :=
        if (0 <=? e)%Z then (100 * Z.pos m * 2 ^ e)%Z
        else div_half_even (100 * Z.pos m) (2 ^ (- e)) in
      let cents := (hundredths mod 100)%Z in
      (if s then py "-" else [])
      ++ digits (hundredths / 100) ++ py "."
      ++ (if (cents <? 10)%Z then py "0" else []) ++ digits cents
  end.

End PyFloat.
Export PyFloat.

(** ** The collaborators: YouTube, Spotify and [fuzzywuzzy] *)

Module Collab.

(** An entry of [get_playlist_videos]: [{'title': ..., 'channel': ...}]. *)
Record Video := mkVideo { v_title : pystr; v_channel : pystr }.

(** A track of a Spotify search: [track['artists'][i]['name']],
    [track['name']] and [track['uri']].  A track is a non-empty object, so
    [if result:] holds for it. *)
Record Track := mkTrack {
  t_artists : list pystr;
  t_name : pystr;
  t_uri : pystr
}.

(** A JSON object of strings, as [_make_request] returns it for a POST. *)
Definition dict := list (pystr * pystr).

Definition dict_get (key : pystr) (d : dict) : option pystr :=
  snd <$> find (fun kv => str_eqb (fst kv) key) d.

(** What the program sends to Spotify. *)
Inductive request :=
| Search (query : pystr)
| CreatePlaylist (name description : pystr) (public : bool)
| AddTracks (playlist_id : pystr) (uris : list pystr).

(** A call either returns or raises an [Exception] with [str(e) = msg]. *)
Inductive outcome (A : Type) :=
| Returned (a : A)
| Raised (msg : pystr).
Arguments Returned {A} a.
Arguments Raised {A} msg.

(** The world outside the program.  Spotify's answers may depend on the
    requests made before. *)
Record World := mkWorld {
  (* [YouTubeExtractor.get_playlist_videos(playlist_id)] *)
  get_playlist_videos : pystr -> list Video;
  (* [SpotifyManager._search_with_query(query)] *)
  search_reply : list request -> pystr -> outcome (option Track);
  (* [SpotifyManager._make_request('POST', ..., json=data)]: it returns a
     body or [None], or raises what it does not catch *)
  post_reply : list request -> request -> outcome (option dict);
  (* [fuzz.ratio(a, b)] *)
  fuzz_ratio : pystr -> pystr -> Z;
  (* [s.lower()] *)
  lower : pystr -> pystr
}.

(** Truth value of an [Optional[Dict]]. *)
Definition truthy_reply (r : option dict) : bool :=
  match r with
  | Some (_ :: _) => true
  | _ => false
  end.

(** [if result:] on the outcome of a POST: a non-empty body was returned. *)
Definition accepted (reply : outcome (option dict)) : bool :=
  match reply with
  | Returned r => truthy_reply r
  | Raised _ => false
  end.

(** Computations that talk to Spotify: the requests made so far are threaded
    through, and a computation returns or raises. *)
Definition M (A : Type) : Type := list request -> outcome A * list request.

Definition ret {A} (a : A) : M A := fun log => (Returned a, log).

Definition raise {A} (msg : pystr) : M A := fun log => (Raised msg, log).

Definition bind {A B} (c : M A) (k : A -> M B) : M B :=
  fun log =>
    match c log with
    | (Returned a, log') => k a log'
    | (Raised msg, log') => (Raised msg, log')
    end.

End Collab.
Export Collab.

Notation "'let*' x := c 'in' k" := (bind c (fun x => k))
  (at level 10, x name, c at level 100, k at level 200).

(** ** [SpotifyManager] *)

Module SpotifyManager.
Section WithWorld.
Variable W : World.

Definition _search_with_query (query : pystr) : M (option Track) :=
  fun log => (search_reply W log query, log ++ [Search query]).

Definition _post (r : request) : M (option dict) :=
  fun log => (post_reply W log r, log ++ [r]).

(** One search strategy: [if cond: result = ...(query); if result: return
    result], then the strategies that follow. *)
Definition strategy {A} (cond : bool) (attempt : M (option A))
    (otherwise : M (option A)) : M (option A) :=
  if cond then
    let* result := attempt in
    match result with
    | Some r => ret (Some r)
    | None => otherwise
    end
  else otherwise.

Definition search_track (artist title : pystr) : M (option Track) :=
  (* Strategy 1: exact artist and track search *)
  strategy (truthy artist && truthy title)
    (_search_with_query (py "artist:" ++ [dq] ++ artist ++ [dq]
                         ++ py " track:" ++ [dq] ++ title ++ [dq]))
  (* Strategy 2: general search with both artist and title *)
  (strategy (truthy artist && truthy title)
    (_search_with_query ([dq] ++ artist ++ [dq] ++ py " "
                         ++ [dq] ++ title ++ [dq]))
  (* Strategy 3: search with just the title *)
  (strategy (truthy title)
    (_search_with_query ([dq] ++ title ++ [dq]))
  (ret None))).

Definition create_playlist (name description : pystr) (public : bool)
    : M (option pystr) :=
  let* result := _post (CreatePlaylist name description public) in
  match result with
  | Some (kv :: d) =>
      match dict_get (py "id") (kv :: d) with
      | Some id => ret (Some id)
      | None => raise (py "'id'")
      end
  | _ => ret None
  end.

(** [range(start, stop, step)] for a positive [step]. *)
Definition py_range (start stop step : nat) : list nat :=
  map (fun k => start + k * step) (seq 0 ((stop - start + step - 1) / step)).

Definition batch_size : nat := 100.

(** The loop of [add_tracks_to_playlist] over the start indices left. *)
Fixpoint add_batches (playlist_id : pystr) (track_uris : list pystr)
    (starts : list nat) : M bool :=
  match starts with
  | [] => ret true
  | i :: starts' =>
      let batch := slice i (i + batch_size) track_uris in
      let* result := _post (AddTracks playlist_id batch) in
      if negb (truthy_reply result) then ret false
      else add_batches playlist_id track_uris starts'
  end.

Definition add_tracks_to_playlist (playlist_id : pystr)
    (track_uris : list pystr) : M bool :=
  add_batches playlist_id track_uris
              (py_range 0 (length track_uris) batch_size).

(** The batches of [add_tracks_to_playlist], all of them, in order. *)
Definition batches_of (track_uris : list pystr) : list (list pystr) :=
  map (fun i => slice i (i + batch_size) track_uris)
      (py_range 0 (length track_uris) batch_size).

(** Spotify accepts each of the batches [sent], posted one after the other
    once the requests of [log] were made. *)
Fixpoint all_accepted (playlist_id : pystr) (log : list request)
    (sent : list (list pystr)) : bool :=
  match sent with
  | [] => true
  | b :: sent' =>
      accepted (post_reply W log (AddTracks playlist_id b))
      && all_accepted playlist_id (log ++ [AddTracks playlist_id b]) sent'
  end.

(** How [add_tracks_to_playlist] ends at a batch that is not accepted:
    [return False] when the request returned nothing, the exception of the
    request when it raised. *)
Definition stopped (reply : outcome (option dict)) : outcome bool :=
  match reply with
  | Returned _ => Returned false
  | Raised msg => Raised msg
  end.

End WithWorld.
End SpotifyManager.
Export SpotifyManager.

(** ** [YouTubeExtractor.extract_playlist_id] *)

Module YouTubeExtractor.

Definition id_chars : cset :=
  CRanges [(97, 122); (65, 90); (48, 57); (95, 95); (45, 45)]%N.

Definition url_patterns : list (list atom) :=
  [ lit "list=" ++ [Open 1; plus id_chars; Close 1];
    lit "playlist?list=" ++ [Open 1; plus id_chars; Close 1] ].

Fixpoint first_group (pats : list (list atom)) (url : pystr) : option pystr :=
  match pats with
  | [] => None
  | pat :: pats' =>
      match re_search false pat url with
      | Some (g :: _) => Some g
      | _ => first_group pats' url
      end
  end.

Definition extract_playlist_id (url : pystr) : option pystr :=
  first_group url_patterns url.

End YouTubeExtractor.
Export YouTubeExtractor.

(** ** [FuzzyMatcher] *)

Module FuzzyMatcher.
Section WithWorld.
Variable W : World.

Definition calculate_match_confidence
    (original_artist original_title spotify_artist spotify_title : pystr)
    : float :=
  if negb (truthy original_artist) || negb (truthy original_title) then 0%float
  else
    let artist_score :=
      fuzz_ratio W (lower W original_artist) (lower W spotify_artist) in
    let title_score :=
      fuzz_ratio W (lower W original_title) (lower W spotify_title) in
    (* weighted average (title is more important) *)
    let confidence :=
      (float_of_int title_score * 0.7 + float_of_int artist_score * 0.3)%float
    in
    (confidence / 100)%float.

End WithWorld.

(** [is_good_match(confidence, threshold=0.5)]; [None] is the argument left
    out. *)
Definition is_good_match (confidence : float) (threshold : option float)
    : bool :=
  geb confidence (default 0.5%float threshold).

End FuzzyMatcher.
Export FuzzyMatcher.

(** ** [Song] and [MigrationStats] *)

Module Data.

Record Song := mkSong {
  original_title : pystr;
  channel_name : pystr;
  artist : pystr;
  title : pystr;
  spotify_uri : pystr;
  match_confidence : float;
  error : pystr;
  found : bool
}.

(** [Song(original_title=..., channel_name=...)] with the defaults. *)
Definition new_song (original_title channel_name : pystr) : Song :=
  mkSong original_title channel_name [] [] [] 0%float [] false.

Definition set_artist (v : pystr) (s : Song) : Song :=
  mkSong (original_title s) (channel_name s) v (title s) (spotify_uri s)
         (match_confidence s) (error s) (found s).
Definition set_title (v : pystr) (s : Song) : Song :=
  mkSong (original_title s) (channel_name s) (artist s) v (spotify_uri s)
         (match_confidence s) (error s) (found s).
Definition set_spotify_uri (v : pystr) (s : Song) : Song :=
  mkSong (original_title s) (channel_name s) (artist s) (title s) v
         (match_confidence s) (error s) (found s).
Definition set_match_confidence (v : float) (s : Song) : Song :=
  mkSong (original_title s) (channel_name s) (artist s) (title s)
         (spotify_uri s) v (error s) (found s).
Definition set_error (v : pystr) (s : Song) : Song :=
  mkSong (original_title s) (channel_name s) (artist s) (title s)
         (spotify_uri s) (match_confidence s) v (found s).
Definition set_found (v : bool) (s : Song) : Song :=
  mkSong (original_title s) (channel_name s) (artist s) (title s)
         (spotify_uri s) (match_confidence s) (error s) v.

(** The counters of [MigrationStats] ([start_time] and [end_time] are clock
    readings and are left out). *)
Record MigrationStats := mkStats {
  total_songs : Z;
  successful_matches : Z;
  not_found : Z;
  errors : Z
}.

Definition new_stats : MigrationStats := mkStats 0 0 0 0.

End Data.
Export Data.

(** ** [PlaylistMigrator] *)

Module PlaylistMigrator.
Section WithWorld.
Variable W : World.

Definition _enhanced_spotify_search (artist title channel : pystr)
    : M (option Track) :=
  (* Strategy 1: use parsed artist if available *)
  strategy (truthy artist && truthy title)
    (search_track W artist title)
  (* Strategy 2: use channel name as artist if different from parsed artist *)
  (strategy (truthy channel && negb (str_eqb channel artist) && truthy title
             && truthy (_clean_channel_name channel))
    (search_track W (_clean_channel_name channel) title)
  (* Strategy 3: search with just the title *)
  (strategy (truthy title)
    (search_track W [] title)
  (ret None))).

(** The working artist of [_process_song]: the channel name stands in when
    no artist was parsed from the title. *)
Definition working_artist (parsed_artist channel : pystr) : pystr :=
  if negb (truthy parsed_artist) && truthy channel
  then _clean_channel_name channel
  else parsed_artist.

(** What [_process_song] does with a track the search returned. *)
Definition record_match (song : Song) (artist song_title : pystr)
    (spotify_track : Track) : Song :=
  match t_artists spotify_track with
  | [] => (* IndexError in [spotify_track['artists'][0]] *)
      set_error (py "list index out of range") song
  | spotify_artist :: _ =>
      let spotify_title := t_name spotify_track in
      let confidence :=
        calculate_match_confidence W artist song_title
                                   spotify_artist spotify_title in
      let song := set_match_confidence confidence song in
      let song := set_spotify_uri (t_uri spotify_track) song in
      let song := set_found (is_good_match confidence None) song in
      if negb (found song)
      then set_error (py "Low confidence match (" ++ format_2f confidence
                      ++ py ")") song
      else song
  end.

Definition _process_song (video_data : Video) (log : list request)
    : Song * list request :=
  let title := v_title video_data in
  let channel := v_channel video_data in
  let song := new_song title channel in
  let '(parsed_artist, song_title) := parse_title title in
  let artist := working_artist parsed_artist channel in
  let song := set_artist artist song in
  let song := set_title song_title song in
  match _enhanced_spotify_search artist song_title channel log with
  | (Returned (Some spotify_track), log') =>
      (record_match song artist song_title spotify_track, log')
  | (Returned None, log') =>
      (set_error (py "No matches found on Spotify") song, log')
  | (Raised msg, log') =>
      (* [except Exception as e: song.error = str(e)] *)
      (set_error msg song, log')
  end.

(** The (artist, title) pair [_process_song] searches and scores with, and
    its search step. *)
Definition searched_artist (video_data : Video) : pystr :=
  working_artist (fst (parse_title (v_title video_data)))
                 (v_channel video_data).
Definition searched_title (video_data : Video) : pystr :=
  snd (parse_title (v_title video_data)).
Definition search_of (video_data : Video) (log : list request)
    : outcome (option Track) * list request :=
  _enhanced_spotify_search (searched_artist video_data)
                           (searched_title video_data)
                           (v_channel video_data) log.

(** The statistics update of the loop in [migrate_playlist]. *)
Definition update_stats (stats : MigrationStats) (song : Song)
    : MigrationStats :=
  if found song then
    mkStats (total_songs stats) (successful_matches stats + 1)
            (not_found stats) (errors stats)
  else if truthy (error song) then
    mkStats (total_songs stats) (successful_matches stats)
            (not_found stats) (errors stats + 1)
  else
    mkStats (total_songs stats) (successful_matches stats)
            (not_found stats + 1) (errors stats).

(** The branch of the statistics update a song falls in. *)
Inductive counted := Accepted | Failed | Unresolved.

Definition classify (song : Song) : counted :=
  if found song then Accepted
  else if truthy (error song) then Failed
  else Unresolved.

Definition counted_eqb (a b : counted) : bool :=
  match a, b with
  | Accepted, Accepted | Failed, Failed | Unresolved, Unresolved => true
  | _, _ => false
  end.

(** How many of [songs] fall in branch [c]. *)
Definition count_of (c : counted) (songs : list Song) : Z :=
  Z.of_nat (length (List.filter (fun s => counted_eqb (classify s) c) songs)).

(** The loop of [migrate_playlist] over the videos left. *)
Fixpoint process_videos (videos : list Video) (songs : list Song)
    (stats : MigrationStats) (log : list request)
    : list Song * MigrationStats * list request :=
  match videos with
  | [] => (songs, stats, log)
  | video_data :: videos' =>
      let '(song, log') := _process_song video_data log in
      process_videos videos' (songs ++ [song]) (update_stats stats song) log'
  end.

(** [[song.spotify_uri for song in songs if song.found]] *)
Definition successful_tracks (songs : list Song) : list pystr :=
  map spotify_uri (List.filter found songs).

(** The last part of [migrate_playlist]: create the playlist and fill it. *)
Definition commit (playlist_name : pystr) (public : bool)
    (stats : MigrationStats) (tracks : list pystr) : M unit :=
  match tracks with
  | [] => ret tt
  | _ :: _ =>
      let description :=
        py "Migrated from YouTube playlist " ++ [8226%N] ++ py " "
        ++ digits (successful_matches stats) ++ py " tracks" in
      let* playlist_id := create_playlist W playlist_name description public in
      match playlist_id with
      | Some (c :: id) =>
          let* success := add_tracks_to_playlist W (c :: id) tracks in
          ret tt
      | _ => ret tt
      end
  end.

Definition migrate_playlist (youtube_url playlist_name : pystr) (public : bool)
    (log : list request) : list Song * MigrationStats * list request :=
  let stats := new_stats in
  let songs : list Song := [] in
  match extract_playlist_id youtube_url with
  | Some (c :: id) =>
      let video_titles := get_playlist_videos W (c :: id) in
      let stats := mkStats (Z.of_nat (length video_titles))
                           (successful_matches stats) (not_found stats)
                           (errors stats) in
      match video_titles with
      | [] => (* ValueError("No videos found in playlist") *)
          (songs, stats, log)
      | _ :: _ =>
          let '(songs, stats, log) :=
            process_videos video_titles songs stats log in
          (* an exception of the last part is caught and printed *)
          let '(_, log) :=
            commit playlist_name public stats (successful_tracks songs) log in
          (songs, stats, log)
      end
  | _ => (* ValueError("Invalid YouTube playlist URL") *)
      (songs, stats, log)
  end.

End WithWorld.
End PlaylistMigrator.
Export PlaylistMigrator.

(** ** Sample worlds, for the concrete runs below *)

Module Samples.

(** [fuzz.ratio] on the strings compared below: 100 on equal strings (the
    library's equivalence check), 0 on strings without a common character. *)
Definition sample_ratio (a b : pystr) : Z :=
  if str_eqb a b then 100%Z else 0%Z.

(** [s.lower()] on ASCII strings. *)
Definition sample_lower (s : pystr) : pystr := map ascii_lower s.

Definition hey_jude : Track :=
  mkTrack [py "The Beatles"] (py "Hey Jude") (py "spotify:track:0aym2LBJBk9DAYuHHutrIl").

Definition other_track : Track :=
  mkTrack [py "XYZ"] (py "QQQ") (py "spotify:track:7")%string.

Definition sample_world (videos : list Video)
    (answer : outcome (option Track)) : World :=
  mkWorld (fun _ => videos) (fun _ _ => answer)
          (fun _ _ => Returned (Some [(py "id", py "playlist1")]))
          sample_ratio sample_lower.

(** Spotify always answers with "Hey Jude" by The Beatles. *)
Definition beatles_world : World :=
  sample_world [mkVideo (py "Hey Jude") (py "The Beatles")]
               (Returned (Some hey_jude)).

(** Spotify finds nothing. *)
Definition silent_world : World :=
  sample_world [mkVideo (py "Adele - Hello") (py "Adele VEVO")]
               (Returned None).

(** Spotify always answers with a track that has nothing in common. *)
Definition stranger_world : World :=
  sample_world [mkVideo (py "Adele - Hello") (py "Adele VEVO")]
               (Returned (Some other_track)).

(** The search raises an exception whose [str(e)] is empty. *)
Definition mute_world : World :=
  sample_world [mkVideo (py "Adele - Hello") (py "Adele VEVO")]
               (Raised []).

(** Every POST is answered with status 429 and [Retry-After: -1]:
    [_make_request] raises the [ValueError] of [time.sleep(-1)]. *)
Definition rate_limited_world : World :=
  mkWorld (fun _ => [mkVideo (py "Hey Jude") (py "The Beatles")])
          (fun _ _ => Returned (Some hey_jude))
          (fun _ _ => Raised (py "sleep length must be non-negative"))
          sample_ratio sample_lower.

Definition sample_url : pystr :=
  py "https://www.youtube.com/playlist?list=PL_x1-a".

End Samples.
Export Samples.

(** ** The weighted score on the scores [fuzz.ratio] can return *)

Module Scores.

(** The weighted average of [calculate_match_confidence] on a title score
    and an artist score. *)
Definition weighted (title_score artist_score : Z) : float :=
  ((float_of_int title_score * 0.7 + float_of_int artist_score * 0.3)
   / 100)%float.

(** The scores 0, 1, ..., 100. *)
Definition scores : list Z := map Z.of_nat (seq 0 101).

Definition all_scores (P : Z -> Z -> bool) : bool :=
  forallb (fun t => forallb (P t) scores) scores.

(** Every float of the list is below or equal to itself and to the ones
    after it. *)
Fixpoint ascending (l : list float) : bool :=
  match l with
  | [] => true
  | x :: r => forallb (PrimFloat.leb x) (x :: r) && ascending r
  end.

(** The pairs (title score, artist score) whose weighted average is 0.5 in
    exact arithmetic and comes out below 0.5 in binary64. *)
Definition rounded_below_half (title_score artist_score : Z) : bool :=
  existsb (fun p => (title_score =? fst p)%Z && (artist_score =? snd p)%Z)
          [(53, 43); (56, 36); (68, 8); (71, 1)]%Z.

(** The two scores [calculate_match_confidence] asks [fuzz.ratio] for. *)
Definition artist_score_of (W : World) (original_artist spotify_artist : pystr)
    : Z :=
  fuzz_ratio W (lower W original_artist) (lower W spotify_artist).
Definition title_score_of (W : World) (original_title spotify_title : pystr)
    : Z :=
  fuzz_ratio W (lower W original_title) (lower W spotify_title).

End Scores.
Export Scores.

(** ** The searches of an item, as a list of queries *)

Module Protocol.

(** The three queries of [search_track]. *)
Definition exact_query (artist title : pystr) : pystr :=
  py "artist:" ++ [dq] ++ artist ++ [dq] ++ py " track:" ++ [dq] ++ title
  ++ [dq].
Definition general_query (artist title : pystr) : pystr :=
  [dq] ++ artist ++ [dq] ++ py " " ++ [dq] ++ title ++ [dq].
Definition title_query (title : pystr) : pystr := [dq] ++ title ++ [dq].

(** The queries [search_track] may send, in the order it sends them. *)
Definition search_queries (artist title : pystr) : list pystr :=
  (if truthy artist && truthy title
   then [exact_query artist title; general_query artist title] else [])
  ++ (if truthy title then [title_query title] else []).

(** The queries [_enhanced_spotify_search] may send, in order. *)
Definition enhanced_queries (artist title channel : pystr) : list pystr :=
  (if truthy artist && truthy title then search_queries artist title else [])
  ++ (if truthy channel && negb (str_eqb channel artist) && truthy title
         && truthy (_clean_channel_name channel)
      then search_queries (_clean_channel_name channel) title else [])
  ++ (if truthy title then search_queries [] title else []).

Section WithWorld.
Variable W : World.

(** Ask the queries one after the other until one returns a track. *)
Fixpoint try_queries (queries : list pystr) : M (option Track) :=
  match queries with
  | [] => ret None
  | q :: queries' =>
      let* result := _search_with_query W q in
      match result with
      | Some track => ret (Some track)
      | None => try_queries queries'
      end
  end.

(** Asked one after the other once the requests of [log] were made, each of
    [queries] returns no track. *)
Fixpoint all_none (log : list request) (queries : list pystr) : Prop :=
  match queries with
  | [] => True
  | q :: queries' =>
      search_reply W log q = Returned None
      /\ all_none (log ++ [Search q]) queries'
  end.

(** The outcome of a run of searches that sent [sent] after [log]: no track
    when every query of [queries] was sent and none returned one; otherwise
    the answer (a track or an exception) to the last query sent, the ones
    before it having returned none. *)
Definition search_outcome (queries : list pystr) (log : list request)
    (result : outcome (option Track)) (sent : list pystr) : Prop :=
  match result with
  | Returned None => sent = queries /\ all_none log queries
  | _ =>
      exists earlier q,
        sent = earlier ++ [q]
        /\ all_none log earlier
        /\ search_reply W (log ++ map Search earlier) q = result
  end.

End WithWorld.
End Protocol.
Export Protocol.

(** ** The requests of a run *)

Module Run.

(** The description [migrate_playlist] gives the playlist it creates. *)
Definition playlist_description (stats : MigrationStats) : pystr :=
  py "Migrated from YouTube playlist " ++ [8226%N] ++ py " "
  ++ digits (successful_matches stats) ++ py " tracks".

(** The id [create_playlist] returns for the outcome of its request, when
    it returns one that [if playlist_id:] accepts. *)
Definition created_id (reply : outcome (option dict)) : option pystr :=
  match reply with
  | Returned (Some (kv :: d)) =>
      match dict_get (py "id") (kv :: d) with
      | Some (c :: id) => Some (c :: id)
      | _ => None
      end
  | _ => None
  end.

(** The videos [migrate_playlist] works on: those of the playlist the URL
    names, none when the URL names no playlist. *)
Definition videos_of (W : World) (youtube_url : pystr) : list Video :=
  match extract_playlist_id youtube_url with
  | Some (c :: id) => get_playlist_videos W (c :: id)
  | _ => []
  end.

End Run.
Export Run.

(** ** [validate_environment] and the check of [PlaylistMigrator.__init__] *)

Module Environment.

(** [os.getenv]: the value of a variable, if it is set. *)
Definition environ := pystr -> option pystr.

Definition required_vars : list pystr :=
  map py ["YOUTUBE_API_KEY"; "SPOTIFY_CLIENT_ID"; "SPOTIFY_CLIENT_SECRET"]%string.

Definition optional_vars : list pystr := [py "SPOTIFY_USER_ID"].

Definition placeholder_values : list pystr :=
  map py ["your_youtube_api_key_here"; "your_spotify_client_id_here";
          "your_spotify_client_secret_here"; "your_spotify_username_here"]%string.

(** Truth value of an [Optional[str]]. *)
Definition truthy_opt (value : option pystr) : bool :=
  match value with
  | Some v => truthy v
  | None => false
  end.

(** Truth value of a list. *)
Definition truthy_list {A} (l : list A) : bool :=
  match l with [] => false | _ :: _ => true end.

(** [value in placeholder_values] *)
Definition is_placeholder (value : pystr) : bool :=
  existsb (str_eqb value) placeholder_values.

(** The first loop of [validate_environment]: the variables that are not
    set and those that hold a placeholder. *)
Fixpoint check_required (getenv : environ) (vars : list pystr)
    (missing_vars placeholder_vars : list pystr) : list pystr * list pystr :=
  match vars with
  | [] => (missing_vars, placeholder_vars)
  | var :: vars' =>
      match getenv var with
      | Some (c :: v) =>
          if is_placeholder (c :: v)
          then check_required getenv vars' missing_vars
                              (placeholder_vars ++ [var])
          else check_required getenv vars' missing_vars placeholder_vars
      | _ => check_required getenv vars' (missing_vars ++ [var])
                            placeholder_vars
      end
  end.

(** [validate_environment()] (the loop over the optional variables only
    prints). *)
Definition validate_environment (getenv : environ) : bool :=
  let '(missing_vars, placeholder_vars) :=
    check_required getenv required_vars [] [] in
  if truthy_list missing_vars || truthy_list placeholder_vars then false
  else true.

(** The check at the start of [PlaylistMigrator.__init__]:
    [all([youtube_api_key, spotify_client_id, spotify_client_secret])];
    [false] is the [ValueError]. *)
Definition init_check (getenv : environ) : bool :=
  forallb truthy_opt (map getenv required_vars).

End Environment.
Export Environment.

(** ** [SpotifyManager._make_request] *)

Module MakeRequest.

(** What one call of [requests.request] does: it raises a
    [RequestException], or returns a response with a status code, the value
    of [int(response.headers.get('Retry-After', 1))] ([None] when [int]
    raises a [ValueError] on the header) and a body ([None] for empty
    content, else the JSON object of the body). *)
Inductive http_result :=
| RequestFailed
| Response (status_code : Z) (retry_after : option Z) (body : option dict).

(** The exceptions [_make_request] does not catch. *)
Inductive exception := ValueError | OverflowError.

(** How a call ends. *)
Inductive result :=
| Return (r : option dict)
| Raise (err : exception).

(** [response.raise_for_status()] raises for the codes from 400 to 599. *)
Definition is_error_status (status_code : Z) : bool :=
  ((400 <=? status_code) && (status_code <? 600))%Z.

(** [time.sleep(secs)] for an [int]: an [OverflowError] when the number of
    nanoseconds does not fit the 64-bit clock, a [ValueError] for a negative
    number; otherwise it sleeps. *)
Definition time_sleep (secs : Z) : option exception :=
  if ((secs <? -9223372036) || (9223372036 <? secs))%Z then Some OverflowError
  else if (secs <? 0)%Z then Some ValueError
  else None.

(** What a call has done so far: the number of requests made and the
    seconds slept, in order. *)
Record effects := Effects { requests_made : nat; slept : list Z }.

(** The loop [for attempt in range(3)] over the attempts left; [http n] is
    the outcome of request number [n] of the call. *)
Fixpoint attempts (http : nat -> http_result) (todo : list nat) (e : effects)
    : result * effects :=
  match todo with
  | [] => (Return None, e)
  | attempt :: todo' =>
      let made := Effects (S (requests_made e)) (slept e) in
      let after_failure :=
        if Nat.eqb attempt 2 then (Return None, made)
        else attempts http todo'
               (Effects (requests_made made) (slept made ++ [2 ^ Z.of_nat attempt]%Z))
      in
      match http (requests_made e) with
      | RequestFailed => after_failure
      | Response status_code retry_after body =>
          if (status_code =? 429)%Z then
            match retry_after with
            | None => (Raise ValueError, made)
            | Some secs =>
                match time_sleep secs with
                | Some err => (Raise err, made)
                | None =>
                    attempts http todo'
                      (Effects (requests_made made) (slept made ++ [secs]))
                end
            end
          else if is_error_status status_code then after_failure
          else (Return (Some (default [] body)), made)
      end
  end.

Definition _make_request (http : nat -> http_result) : result * effects :=
  attempts http (seq 0 3) (Effects 0 []).




End MakeRequest.
Export MakeRequest.

(** ** Runs of characters, and playlist ids in a URL *)

Module Runs.

(** The number of characters at the start of [s] that satisfy [p]. *)
Fixpoint leading (p : N -> bool) (s : pystr) : nat :=
  match s with
  | c :: s' => if p c then S (leading p s') else 0
  | [] => 0
  end.

(** A character of a playlist id: [[a-zA-Z0-9_-]]. *)
Definition is_id (c : N) : bool := cset_mem false id_chars c.

(** The playlist id that starts [s], when [s] is [list=] followed by one. *)
Definition id_at (s : pystr) : option pystr :=
  if startswith s (py "list=") && Nat.leb 1 (leading is_id (drop 5 s))
  then Some (take (leading is_id (drop 5 s)) (drop 5 s))
  else None.

(** The first playlist id of a URL, from the left. *)
Fixpoint first_id (s : pystr) : option pystr :=
  match id_at s with
  | Some id => Some id
  | None =>
      match s with
      | [] => None
      | _ :: s' => first_id s'
      end
  end.

End Runs.
Export Runs.

(** ** White space in a cleaned title *)

Module Spacing.

(** Every white space character of [s] is a space, followed by a character
    that is not white space or by the end of [s]. *)
Fixpoint single_spaced (s : pystr) : bool :=
  match s with
  | [] => true
  | c :: s' =>
      (negb (isspace c)
       || (c =? 32)%N
          && match s' with
             | d :: _ => negb (isspace d)
             | [] => true
             end)
      && single_spaced s'
  end.

End Spacing.
Export Spacing.

(** ** The hyphen pattern of [TitleParser] *)

Module HyphenPattern.

(** What follows group 1 in the hyphen pattern. *)
Definition hyphen_tail : list atom :=
  [star CSpace; Chr (CLit 45); star CSpace; Open 2; plus CAny; Close 2; Eol].

End HyphenPattern.
Export HyphenPattern.

(** ** The URL check of [get_user_input] *)

Module UserInput.

(** The test [get_user_input] makes on the URL typed in before it accepts
    it. *)
Definition url_accepted (youtube_url : pystr) : bool :=
  truthy youtube_url
  && (contains (py "youtube.com") youtube_url
      && (contains (py "playlist") youtube_url
          || contains (py "list=") youtube_url)).

End UserInput.
Export UserInput.

(** ** [YouTubeExtractor.get_playlist_videos], page by page *)

Module Pagination.

(** An item of a page: [item['snippet']['title']] and
    [item['snippet'].get('videoOwnerChannelTitle')] (a string when it is
    there). *)
Record item := mkItem {
  snippet_title : pystr;
  owner_channel_title : option pystr
}.

(** The answer to one request for a page: a [RequestException], or the
    items of the page and its [nextPageToken]. *)
Inductive page_reply :=
| PageFailed
| Page (items : list item) (next_page_token : option pystr).

(** [s.replace(old, '')] for a non-empty [old]: the occurrences of [old]
    are dropped from the left, [skip] counting the characters of the last
    one that are still to be dropped. *)
Fixpoint remove_go (old : pystr) (skip : nat) (s : pystr) : pystr :=
  match s with
  | [] => []
  | c :: s' =>
      match skip with
      | S n => remove_go old n s'
      | O =>
          if startswith s old then remove_go old (length old - 1) s'
          else c :: remove_go old 0 s'
      end
  end.

Definition remove_all (old s : pystr) : pystr := remove_go old 0 s.

(** The entry made for an item. *)
Definition video_of (it : item) : Video :=
  mkVideo (snippet_title it)
          (remove_all (py " - Topic") (default [] (owner_channel_title it))).

(** [title != "Deleted video" and title != "Private video"] *)
Definition is_listed (it : item) : bool :=
  negb (str_eqb (snippet_title it) (py "Deleted video"))
  && negb (str_eqb (snippet_title it) (py "Private video")).

(** The [while True] loop, with [fuel] turns left; [fetch asked token] is
    the answer to the request for the page of [token] once the pages of
    [asked] were requested.  [None]: the fuel ran out. *)
Fixpoint pages (fetch : list (option pystr) -> option pystr -> page_reply)
    (fuel : nat) (next_page_token : option pystr)
    (asked : list (option pystr)) (videos : list Video)
    : option (list Video) :=
  match fuel with
  | O => None
  | S fuel' =>
      match fetch asked next_page_token with
      | PageFailed => Some videos
      | Page items next =>
          let videos := videos ++ map video_of (List.filter is_listed items) in
          match next with
          | Some (c :: token) =>
              pages fetch fuel' (Some (c :: token))
                    (asked ++ [next_page_token]) videos
          | _ => Some videos
          end
      end
  end.

(** An answer that ends the loop: a failure, or a page without a
    [nextPageToken] (or with an empty one). *)
Definition is_last (reply : page_reply) : bool :=
  match reply with
  | PageFailed => true
  | Page _ (Some (_ :: _)) => false
  | Page _ _ => true
  end.

(** A video whose title is neither of the two titles YouTube gives to
    videos that are gone. *)
Definition listed_title (v : Video) : Prop :=
  v_title v <> py "Deleted video" /\ v_title v <> py "Private video".

Definition get_playlist_videos
    (fetch : list (option pystr) -> option pystr -> page_reply) (fuel : nat)
    : option (list Video) :=
  pages fetch fuel None [] [].

End Pagination.

(** * Properties *)

(** ** The matcher's threshold *)

Lemma SFcompare_antisym (x y : spec_float) :
  SFcompare y x = CompOpp <$> SFcompare x y.
Proof.
  destruct x as [[]|[]| |[] m1 e1], y as [[]|[]| |[] m2 e2]; simpl;
    try reflexivity;
    rewrite (Z.compare_antisym e1 e2); destruct (e1 ?= e2)%Z; simpl;
    try reflexivity;
    pose proof (Pos.compare_cont_antisym m1 m2 Eq) as H; simpl in H;
    rewrite <- H; destruct (Pos.compare_cont Eq m1 m2); reflexivity.
Qed.

Lemma geb_compare (x y : float) :
  geb x y = true <-> (x ?= y)%float = FEq \/ (x ?= y)%float = FGt.
Proof.
  unfold geb. rewrite FloatAxioms.leb_spec, FloatAxioms.compare_spec.
  unfold SFleb.
  rewrite (SFcompare_antisym (Prim2SF x) (Prim2SF y)).
  destruct (SFcompare (Prim2SF x) (Prim2SF y)) as [[]|]; simpl;
    intuition discriminate.
Qed.

(** C8. [is_good_match(c, t)] is true exactly when [c >= t] in the order of
    floats (the comparison of [c] with [t] is "equal" or "greater"); the
    threshold left out is 0.5; the boundary is inclusive:
    [is_good_match(0.5, 0.5)] holds and [is_good_match(0.49999, 0.5)] does
    not. *)
Theorem is_good_match_spec (c t : float) :
  (is_good_match c (Some t) = true
   <-> (c ?= t)%float = FEq \/ (c ?= t)%float = FGt)
  /\ is_good_match c None = is_good_match c (Some 0.5%float)
  /\ is_good_match 0.5 (Some 0.5%float) = true
  /\ is_good_match 0.49999 (Some 0.5%float) = false.
Proof.
  split; [apply geb_compare|].
  split; [reflexivity|].
  split; vm_compute; reflexivity.
Qed.

(** ** The per-song pipeline *)

Section ProcessSong.
Variable W : World.
Implicit Types (video : Video) (log : list request) (track : Track).

Lemma process_song_unfold video log :
  _process_song W video log =
  let song :=
    set_title (searched_title video)
      (set_artist (searched_artist video)
         (new_song (v_title video) (v_channel video))) in
  match search_of W video log with
  | (Returned (Some spotify_track), log') =>
      (record_match W song (searched_artist video) (searched_title video)
                    spotify_track, log')
  | (Returned None, log') =>
      (set_error (py "No matches found on Spotify") song, log')
  | (Raised msg, log') => (set_error msg song, log')
  end.
Proof.
  unfold _process_song, search_of, searched_artist, searched_title.
  destruct (parse_title (v_title video)) as [parsed_artist song_title].
  reflexivity.
Qed.

Lemma process_song_found video log log' track :
  search_of W video log = (Returned (Some track), log') ->
  _process_song W video log =
  (record_match W
     (set_title (searched_title video)
        (set_artist (searched_artist video)
           (new_song (v_title video) (v_channel video))))
     (searched_artist video) (searched_title video) track, log').
Proof. intros H. rewrite process_song_unfold. cbn zeta. now rewrite H. Qed.

Lemma process_song_none video log log' :
  search_of W video log = (Returned None, log') ->
  _process_song W video log =
  (set_error (py "No matches found on Spotify")
     (set_title (searched_title video)
        (set_artist (searched_artist video)
           (new_song (v_title video) (v_channel video)))), log').
Proof. intros H. rewrite process_song_unfold. cbn zeta. now rewrite H. Qed.

Lemma process_song_raised video log log' msg :
  search_of W video log = (Raised msg, log') ->
  _process_song W video log =
  (set_error msg
     (set_title (searched_title video)
        (set_artist (searched_artist video)
           (new_song (v_title video) (v_channel video)))), log').
Proof. intros H. rewrite process_song_unfold. cbn zeta. now rewrite H. Qed.

End ProcessSong.

Lemma float_neq (x y : float) :
  (x =? x)%float = true -> (x =? y)%float = false -> x <> y.
Proof. intros H1 H2 ->. congruence. Qed.

(** C1 (as stated, refuted).  The label "Hey Jude" has no parsed artist; the
    cleaned channel name "The Beatles" stands in, Spotify answers with that
    very track, and the confidence recorded is 1.0, not the 0.0 that scoring
    with the empty parsed artist gives. *)
Lemma confidence_uses_channel_artist :
  let video := mkVideo (py "Hey Jude") (py "The Beatles") in
  let song := fst (_process_song beatles_world video []) in
  parse_title (v_title video) = ([], py "Hey Jude")
  /\ fst (search_of beatles_world video []) = Returned (Some hey_jude)
  /\ calculate_match_confidence beatles_world [] (py "Hey Jude")
       (py "The Beatles") (py "Hey Jude") = 0%float
  /\ match_confidence song = 1%float
  /\ match_confidence song <> 0%float
  /\ found song = true.
Proof.
  cbv zeta. repeat split; try (vm_compute; reflexivity).
  apply float_neq; vm_compute; reflexivity.
Qed.

(** C1 (amended).  When the search returns a track, the confidence recorded
    is computed from the working artist and the parsed title: the parsed
    artist, or the cleaned channel name where the parsed artist is empty and
    the channel is not. *)
Theorem confidence_of_working_artist (W : World) (video : Video)
    (log log' : list request) (track : Track)
    (spotify_artist : pystr) (others : list pystr) :
  search_of W video log = (Returned (Some track), log') ->
  t_artists track = spotify_artist :: others ->
  match_confidence (fst (_process_song W video log))
  = calculate_match_confidence W (searched_artist video)
      (searched_title video) spotify_artist (t_name track)
  /\ (fst (parse_title (v_title video)) = [] -> v_channel video <> [] ->
      searched_artist video = _clean_channel_name (v_channel video))
  /\ (fst (parse_title (v_title video)) <> [] ->
      searched_artist video = fst (parse_title (v_title video))).
Proof.
  intros Hs Ha. split; [|split].
  - rewrite (process_song_found _ _ _ _ _ Hs). unfold record_match.
    rewrite Ha. cbn zeta.
    match goal with |- context [negb ?b] => destruct b end; reflexivity.
  - unfold searched_artist, working_artist. intros -> Hc.
    destruct (v_channel video); [contradiction|reflexivity].
  - unfold searched_artist, working_artist. intros Hp.
    destruct (fst (parse_title (v_title video))); [contradiction|reflexivity].
Qed.

Lemma confidence_of_working_artist_witness :
  let video := mkVideo (py "Hey Jude") (py "The Beatles") in
  search_of beatles_world video []
  = (Returned (Some hey_jude),
     [Search (py "artist:" ++ [dq] ++ py "The Beatles" ++ [dq]
              ++ py " track:" ++ [dq] ++ py "Hey Jude" ++ [dq])])
  /\ match_confidence (fst (_process_song beatles_world video []))
     = calculate_match_confidence beatles_world (py "The Beatles")
         (py "Hey Jude") (py "The Beatles") (py "Hey Jude").
Proof.
  cbv zeta. split; [vm_compute; reflexivity|].
  refine (proj1 (confidence_of_working_artist beatles_world
                   (mkVideo (py "Hey Jude") (py "The Beatles")) [] _ hey_jude
                   (py "The Beatles") [] _ _)); vm_compute; reflexivity.
Defined.

(** ** Items without a search result *)

(** C6 (as stated, refuted).  Spotify finds nothing for "Adele - Hello": the
    error recorded is "No matches found on Spotify", not "no match found",
    and the run counts the song under [errors], leaving [not_found] at 0. *)
Lemma no_result_message_and_counters :
  let video := mkVideo (py "Adele - Hello") (py "Adele VEVO") in
  let song := fst (_process_song silent_world video []) in
  let '(songs, stats, _) :=
    migrate_playlist silent_world sample_url (py "mine") true [] in
  fst (search_of silent_world video []) = Returned None
  /\ songs = [song]
  /\ error song = py "No matches found on Spotify"
  /\ error song <> py "no match found"
  /\ total_songs stats = 1%Z
  /\ not_found stats = 0%Z
  /\ errors stats = 1%Z.
Proof. vm_compute. repeat split; try reflexivity. discriminate. Qed.

Lemma successful_tracks_app (a b : list Song) :
  successful_tracks (a ++ b) = successful_tracks a ++ successful_tracks b.
Proof. unfold successful_tracks. now rewrite List.filter_app, map_app. Qed.

Lemma update_stats_total (stats : MigrationStats) (song : Song) :
  total_songs (update_stats stats song) = total_songs stats.
Proof.
  unfold update_stats. destruct (found song); [reflexivity|].
  destruct (truthy (error song)); reflexivity.
Qed.

(** ** Rejected matches *)

Lemma update_stats_failed (stats : MigrationStats) (song : Song) :
  found song = false ->
  error song <> [] ->
  update_stats stats song
  = mkStats (total_songs stats) (successful_matches stats)
            (not_found stats) (errors stats + 1).
Proof.
  intros Hf He. unfold update_stats. rewrite Hf.
  destruct (error song); [contradiction|reflexivity].
Qed.

Lemma update_stats_unresolved (stats : MigrationStats) (song : Song) :
  found song = false ->
  error song = [] ->
  update_stats stats song
  = mkStats (total_songs stats) (successful_matches stats)
            (not_found stats + 1) (errors stats).
Proof.
  intros Hf He. unfold update_stats. now rewrite Hf, He.
Qed.

(** C10 (as stated, refuted).  A rejected match and an exception are told
    apart by the counters when the exception has an empty message: the
    search raises with [str(e) = ''], the error of the song is empty, and the
    run counts it under [not_found]; the rejected match of the other run is
    counted under [errors]. *)
Lemma empty_message_counts_as_not_found :
  let video := mkVideo (py "Adele - Hello") (py "Adele VEVO") in
  let '(songs, stats, _) :=
    migrate_playlist mute_world sample_url (py "mine") true [] in
  let '(songs', stats', _) :=
    migrate_playlist stranger_world sample_url (py "mine") true [] in
  fst (search_of mute_world video []) = Raised []
  /\ map error songs = [[]]
  /\ (not_found stats, errors stats) = (1, 0)%Z
  /\ map error songs' = [py "Low confidence match (0.00)"]
  /\ (not_found stats', errors stats') = (0, 1)%Z.
Proof. vm_compute. repeat split; reflexivity. Qed.

(** C10 (amended).  When the search returns a track and the confidence
    recorded for the song is below the threshold, the song is not found, its
    error is a non-empty message ("Low confidence match (<score>)" when the
    track names an artist), and the statistics update adds 1 to [errors] and
    leaves [not_found] as it is.  This is the update made for a song whose
    search raised an exception with a non-empty message; a song whose search
    raised with an empty message adds 1 to [not_found] instead. *)
Theorem low_confidence_counts_as_error (W : World) (video : Video)
    (log log' : list request) (track : Track) :
  search_of W video log = (Returned (Some track), log') ->
  let song := fst (_process_song W video log) in
  is_good_match (match_confidence song) None = false ->
  found song = false
  /\ error song <> []
  /\ (forall spotify_artist others,
        t_artists track = spotify_artist :: others ->
        error song = py "Low confidence match ("
                     ++ format_2f (match_confidence song) ++ py ")")
  /\ (forall stats : MigrationStats,
        update_stats stats song
        = mkStats (total_songs stats) (successful_matches stats)
                  (not_found stats) (errors stats + 1))
  /\ (forall (W' : World) (video' : Video) (log0 log1 : list request)
             (msg : pystr) (stats : MigrationStats),
        search_of W' video' log0 = (Raised msg, log1) ->
        (msg <> [] ->
         update_stats stats (fst (_process_song W' video' log0))
         = update_stats stats song)
        /\ (msg = [] ->
            update_stats stats (fst (_process_song W' video' log0))
            = mkStats (total_songs stats) (successful_matches stats)
                      (not_found stats + 1) (errors stats))).
Proof.
  intros Hs. cbn zeta. rewrite (process_song_found _ _ _ _ _ Hs). cbn [fst].
  set (song := record_match _ _ _ _ _). intros Hlow.
  assert (Hf : found song = false /\ error song <> []
               /\ forall a others, t_artists track = a :: others ->
                    error song = py "Low confidence match ("
                                 ++ format_2f (match_confidence song) ++ py ")").
  { revert Hlow. subst song. unfold record_match.
    destruct (t_artists track) as [|a others].
    - intros _. repeat split; [discriminate|discriminate].
    - cbn zeta.
      destruct (is_good_match (calculate_match_confidence _ _ _ _ _) None)
        eqn:E;
        cbn [found set_found set_error set_spotify_uri set_match_confidence
             match_confidence error];
        rewrite ?E;
        cbn [negb found set_found set_error set_spotify_uri
             set_match_confidence match_confidence error].
      + intros Hlow. congruence.
      + intros _. split; [reflexivity|]. split; [cbn; discriminate|].
        reflexivity. }
  destruct Hf as (Hf & He & Hmsg).
  split; [exact Hf|]. split; [exact He|]. split; [exact Hmsg|].
  split; [intros stats; now apply update_stats_failed|].
  intros W' video' log0 log1 msg stats Hr.
  rewrite (process_song_raised _ _ _ _ _ Hr). cbn [fst].
  split.
  - intros Hm. rewrite !update_stats_failed; auto.
  - intros ->. now apply update_stats_unresolved.
Qed.

Lemma low_confidence_counts_as_error_witness :
  let video := mkVideo (py "Adele - Hello") (py "Adele VEVO") in
  let song := fst (_process_song stranger_world video []) in
  fst (search_of stranger_world video []) = Returned (Some other_track)
  /\ is_good_match (match_confidence song) None = false
  /\ error song = py "Low confidence match (0.00)"
  /\ errors (update_stats new_stats song) = 1%Z
  /\ not_found (update_stats new_stats song) = 0%Z.
Proof.
  cbv zeta. split; [vm_compute; reflexivity|].
  split; [vm_compute; reflexivity|].
  pose proof (low_confidence_counts_as_error stranger_world
                (mkVideo (py "Adele - Hello") (py "Adele VEVO")) []
                (snd (search_of stranger_world
                        (mkVideo (py "Adele - Hello") (py "Adele VEVO")) []))
                other_track) as H.
  cbn zeta in H. destruct H as (_ & _ & Hmsg & Hst & _).
  - vm_compute; reflexivity.
  - vm_compute; reflexivity.
  - split; [|rewrite Hst; split; reflexivity].
    rewrite (Hmsg (py "XYZ") []); [|reflexivity]. vm_compute. reflexivity.
Defined.

(** ** The statistics of a run *)

Lemma count_of_app (c : counted) (a b : list Song) :
  count_of c (a ++ b) = (count_of c a + count_of c b)%Z.
Proof.
  unfold count_of. rewrite List.filter_app, length_app. lia.
Qed.

Lemma count_of_partition (songs : list Song) :
  (count_of Accepted songs + count_of Unresolved songs
   + count_of Failed songs)%Z = Z.of_nat (length songs).
Proof.
  induction songs as [|s songs IH]; [reflexivity|].
  change (s :: songs) with ([s] ++ songs).
  rewrite !count_of_app, length_app.
  assert (count_of Accepted [s] + count_of Unresolved [s]
          + count_of Failed [s] = 1)%Z.
  { unfold count_of. cbn [List.filter]. destruct (classify s); reflexivity. }
  cbn [length Nat.add]. lia.
Qed.

Lemma update_stats_counts (stats : MigrationStats) (song : Song) :
  update_stats stats song
  = mkStats (total_songs stats)
            (successful_matches stats + count_of Accepted [song])
            (not_found stats + count_of Unresolved [song])
            (errors stats + count_of Failed [song]).
Proof.
  unfold update_stats, count_of, classify. cbn [List.filter].
  destruct (found song); cbn; rewrite ?Z.add_0_r.
  - destruct stats; reflexivity.
  - destruct (truthy (error song)); cbn; rewrite ?Z.add_0_r;
      destruct stats; reflexivity.
Qed.

Lemma process_videos_counts (W : World) (videos : list Video) :
  forall (songs : list Song) (stats : MigrationStats) (log : list request),
  exists new log',
    process_videos W videos songs stats log
    = (songs ++ new,
       mkStats (total_songs stats)
               (successful_matches stats + count_of Accepted new)
               (not_found stats + count_of Unresolved new)
               (errors stats + count_of Failed new),
       log')
    /\ length new = length videos.
Proof.
  induction videos as [|v videos IH]; intros songs stats log.
  - exists [], log. cbn. rewrite app_nil_r, !Z.add_0_r.
    destruct stats; auto.
  - cbn [process_videos].
    destruct (_process_song W v log) as [song log1].
    destruct (IH (songs ++ [song]) (update_stats stats song) log1)
      as (new & log' & -> & Hlen).
    exists (song :: new), log'. split; [|cbn; now rewrite Hlen].
    rewrite <- app_assoc. cbn [app].
    change (song :: new) with ([song] ++ new).
    rewrite !count_of_app, update_stats_counts. cbn [total_songs
      successful_matches not_found errors].
    rewrite !Z.add_assoc. reflexivity.
Qed.

Lemma process_videos_app (W : World) (a b : list Video) :
  forall (songs : list Song) (stats : MigrationStats) (log : list request),
  process_videos W (a ++ b) songs stats log
  = let '(songs1, stats1, log1) := process_videos W a songs stats log in
    process_videos W b songs1 stats1 log1.
Proof.
  induction a as [|v a IH]; intros songs stats log; [reflexivity|].
  cbn [app process_videos].
  destruct (_process_song W v log) as [song log1]. apply IH.
Qed.

(** The songs and the requests of the loop depend neither on the songs
    gathered before nor on the counters. *)
Lemma process_videos_indep (W : World) (videos : list Video) :
  forall (songs songs' : list Song) (stats stats' : MigrationStats)
         (log : list request),
  exists new,
    fst (fst (process_videos W videos songs stats log)) = songs ++ new
    /\ fst (fst (process_videos W videos songs' stats' log)) = songs' ++ new
    /\ snd (process_videos W videos songs' stats' log)
       = snd (process_videos W videos songs stats log).
Proof.
  induction videos as [|v videos IH]; intros songs songs' stats stats' log.
  - exists []. cbn. now rewrite !app_nil_r.
  - cbn [process_videos].
    destruct (_process_song W v log) as [song log1].
    destruct (IH (songs ++ [song]) (songs' ++ [song])
                 (update_stats stats song) (update_stats stats' song) log1)
      as (new & H1 & H2 & H3).
    exists (song :: new). rewrite H1, H2, H3, <- !app_assoc. auto.
Qed.

(** C6 (amended).  Take a run and one of its videos; let the search for it,
    made after the requests of the videos before it, return no result.  Then
    the song of that video stands in the result at the place of the video;
    its error is exactly "No matches found on Spotify", it is not found and
    has no URI; the commit set is that of the other songs; and the video is
    counted in the total: [total_songs] is the number of videos extracted,
    this one included, which is also the number of songs returned. *)
Theorem no_result_recorded (W : World) (youtube_url playlist_name : pystr)
    (public : bool) (before after : list Video) (video : Video)
    (log : list request) :
  videos_of W youtube_url = before ++ video :: after ->
  let '(songs_before, _, log_before) :=
    process_videos W before [] new_stats log in
  fst (search_of W video log_before) = Returned None ->
  let '(songs, stats, _) :=
    migrate_playlist W youtube_url playlist_name public log in
  exists song songs_after,
    songs = songs_before ++ song :: songs_after
    /\ length songs_before = length before
    /\ length songs_after = length after
    /\ song = fst (_process_song W video log_before)
    /\ error song = py "No matches found on Spotify"
    /\ found song = false
    /\ spotify_uri song = []
    /\ successful_tracks songs
       = successful_tracks songs_before ++ successful_tracks songs_after
    /\ total_songs stats = Z.of_nat (length (before ++ video :: after))
    /\ total_songs stats = Z.of_nat (length songs).
Proof.
  intros Hvideos.
  destruct (process_videos W before [] new_stats log)
    as [[songs_before stats_before] log_before] eqn:Hbefore.
  intros Hnone.
  unfold migrate_playlist. unfold videos_of in Hvideos.
  destruct (extract_playlist_id youtube_url) as [[|c id]|];
    try (now apply app_cons_not_nil in Hvideos).
  rewrite Hvideos.
  destruct (before ++ video :: after) as [|v0 vs] eqn:Hcons;
    [symmetry in Hcons; now apply app_cons_not_nil in Hcons|].
  rewrite <- Hcons. clear Hvideos Hcons v0 vs.
  set (stats0 := mkStats _ _ _ _).
  rewrite process_videos_app.
  destruct (process_videos_indep W before [] [] new_stats stats0 log)
    as (new & H1 & H2 & H3).
  destruct (process_videos_counts W before [] new_stats log)
    as (new' & log' & Hrun & Hlen).
  rewrite Hbefore in H1, H3, Hrun. cbn [fst snd app] in H1, H3.
  injection Hrun as Hs _ _. cbn [app] in Hs. subst new' new.
  destruct (process_videos_counts W before [] stats0 log)
    as (new0 & log0 & Hrun0 & _).
  rewrite Hrun0 in H2, H3. cbn [fst snd app] in H2, H3. subst new0 log0.
  rewrite Hrun0. cbn [process_videos].
  change ([] ++ songs_before) with songs_before.
  destruct (search_of W video log_before) as [r log1] eqn:Hsearch.
  cbn [fst] in Hnone. subst r.
  rewrite (process_song_none W video log_before log1 Hsearch).
  set (song := set_error _ _).
  destruct (process_videos_counts W after (songs_before ++ [song])
              (update_stats
                 (mkStats (total_songs stats0)
                    (successful_matches stats0
                     + count_of Accepted songs_before)
                    (not_found stats0 + count_of Unresolved songs_before)
                    (errors stats0 + count_of Failed songs_before)) song)
              log1)
    as (songs_after & log2 & Hrun2 & Hlen2).
  rewrite Hrun2.
  destruct (commit _ _ _ _ _ _) as [? log3].
  exists song, songs_after.
  rewrite <- app_assoc. cbn [app fst].
  split; [reflexivity|]. split; [exact Hlen|]. split; [exact Hlen2|].
  split; [reflexivity|]. split; [reflexivity|]. split; [reflexivity|].
  split; [reflexivity|].
  split.
  { change (song :: songs_after) with ([song] ++ songs_after).
    now rewrite !successful_tracks_app. }
  rewrite update_stats_total. cbn [total_songs stats0].
  split; [reflexivity|].
  rewrite !length_app. cbn [length]. rewrite Hlen, Hlen2. reflexivity.
Qed.

Lemma no_result_recorded_witness :
  let video := mkVideo (py "Adele - Hello") (py "Adele VEVO") in
  let '(songs, stats, _) :=
    migrate_playlist silent_world sample_url (py "mine") true [] in
  exists song songs_after,
    songs = [] ++ song :: songs_after
    /\ length (@nil Song) = length (@nil Video)
    /\ length songs_after = length (@nil Video)
    /\ song = fst (_process_song silent_world video [])
    /\ error song = py "No matches found on Spotify"
    /\ found song = false
    /\ spotify_uri song = []
    /\ successful_tracks songs
       = successful_tracks [] ++ successful_tracks songs_after
    /\ total_songs stats = Z.of_nat (length ([] ++ [video]))
    /\ total_songs stats = Z.of_nat (length songs).
Proof.
  cbv zeta.
  apply (no_result_recorded silent_world sample_url (py "mine") true [] []
           (mkVideo (py "Adele - Hello") (py "Adele VEVO")) []);
    vm_compute; reflexivity.
Defined.

(** C7.  After [migrate_playlist], however the run went, every song of the
    result falls in exactly one branch of the statistics update (accepted,
    unresolved, failed); the three counters are the numbers of songs in the
    three branches, and their sum is [total_songs], the number of songs. *)
Theorem stats_sum_to_total (W : World) (youtube_url playlist_name : pystr)
    (public : bool) (log : list request) :
  let '(songs, stats, _) :=
    migrate_playlist W youtube_url playlist_name public log in
  successful_matches stats = count_of Accepted songs
  /\ not_found stats = count_of Unresolved songs
  /\ errors stats = count_of Failed songs
  /\ (count_of Accepted songs + count_of Unresolved songs
      + count_of Failed songs)%Z = Z.of_nat (length songs)
  /\ total_songs stats = Z.of_nat (length songs)
  /\ (successful_matches stats + not_found stats + errors stats)%Z
     = total_songs stats.
Proof.
  unfold migrate_playlist.
  destruct (extract_playlist_id youtube_url) as [[|c id]|];
    try (cbn; repeat split; reflexivity).
  destruct (get_playlist_videos W (c :: id)) as [|v videos] eqn:Hv;
    [cbn; repeat split; reflexivity|].
  destruct (process_videos_counts W (v :: videos) [] 
              (mkStats (Z.of_nat (length (v :: videos)))
                 (successful_matches new_stats) (not_found new_stats)
                 (errors new_stats)) log)
    as (new & log' & -> & Hlen).
  destruct (commit _ _ _ _ _ _) as [? log2].
  cbn [app total_songs successful_matches not_found errors new_stats].
  pose proof (count_of_partition new) as Hp.
  rewrite Hlen. repeat split; lia.
Qed.

(** ** Adding tracks in batches *)

Section AddTracks.
Variable W : World.
Variable playlist_id : pystr.

Lemma all_accepted_app (log : list request) (a b : list (list pystr)) :
  all_accepted W playlist_id log (a ++ b)
  = all_accepted W playlist_id log a
    && all_accepted W playlist_id (log ++ map (AddTracks playlist_id) a) b.
Proof.
  revert log. induction a as [|x a IH]; intros log.
  - cbn. now rewrite app_nil_r.
  - cbn [app map all_accepted]. rewrite IH, <- app_assoc, andb_assoc.
    reflexivity.
Qed.

(** The first batch that is not accepted is the same however it is found. *)
Lemma first_refused_unique (earlier earlier' later later' : list (list pystr))
    (b b' : list pystr) :
  forall log : list request,
  earlier ++ b :: later = earlier' ++ b' :: later' ->
  all_accepted W playlist_id log earlier = true ->
  accepted (post_reply W (log ++ map (AddTracks playlist_id) earlier)
                       (AddTracks playlist_id b)) = false ->
  all_accepted W playlist_id log earlier' = true ->
  accepted (post_reply W (log ++ map (AddTracks playlist_id) earlier')
                       (AddTracks playlist_id b')) = false ->
  earlier = earlier' /\ b = b'.
Proof.
  revert earlier'. induction earlier as [|x earlier IH];
    intros [|x' earlier'] log Heq Ha Hb Ha' Hb'; cbn [app map] in *.
  - injection Heq as -> _. auto.
  - injection Heq as -> _. cbn [all_accepted] in Ha'.
    rewrite app_nil_r in Hb. rewrite Hb in Ha'. discriminate.
  - injection Heq as -> _. cbn [all_accepted] in Ha.
    rewrite app_nil_r in Hb'. rewrite Hb' in Ha. discriminate.
  - injection Heq as -> Heq. cbn [all_accepted] in Ha, Ha'.
    apply andb_true_iff in Ha, Ha'. destruct Ha as [_ Ha], Ha' as [_ Ha'].
    replace (log ++ AddTracks playlist_id x'
                    :: map (AddTracks playlist_id) earlier)
      with ((log ++ [AddTracks playlist_id x'])
            ++ map (AddTracks playlist_id) earlier) in Hb
      by now rewrite <- app_assoc.
    replace (log ++ AddTracks playlist_id x'
                    :: map (AddTracks playlist_id) earlier')
      with ((log ++ [AddTracks playlist_id x'])
            ++ map (AddTracks playlist_id) earlier') in Hb'
      by now rewrite <- app_assoc.
    destruct (IH earlier' _ Heq Ha Hb Ha' Hb') as [-> ->]. auto.
Qed.

Lemma add_batches_spec (track_uris : list pystr) (starts : list nat) :
  forall log : list request,
  let all := map (fun i => slice i (i + batch_size) track_uris) starts in
  (all_accepted W playlist_id log all = true
   /\ add_batches W playlist_id track_uris starts log
      = (Returned true, log ++ map (AddTracks playlist_id) all))
  \/ (exists earlier b later,
        all = earlier ++ b :: later
        /\ all_accepted W playlist_id log earlier = true
        /\ accepted
             (post_reply W (log ++ map (AddTracks playlist_id) earlier)
                         (AddTracks playlist_id b)) = false
        /\ add_batches W playlist_id track_uris starts log
           = (stopped
                (post_reply W (log ++ map (AddTracks playlist_id) earlier)
                            (AddTracks playlist_id b)),
              log ++ map (AddTracks playlist_id) (earlier ++ [b]))).
Proof.
  induction starts as [|i starts IH]; intros log; cbn zeta.
  - left. split; [reflexivity|]. cbn. now rewrite app_nil_r.
  - cbn [map add_batches all_accepted].
    set (b := slice i (i + batch_size) track_uris).
    unfold bind, _post.
    destruct (accepted (post_reply W log (AddTracks playlist_id b)))
      eqn:Hr; cbn [negb andb].
    + destruct (post_reply W log (AddTracks playlist_id b)) as [r|msg] eqn:Hp;
        [|discriminate]. cbn [accepted] in Hr. rewrite Hr. cbn [negb].
      destruct (IH (log ++ [AddTracks playlist_id b]))
        as [[Hall Hrun]|(earlier & b' & later & Heq & Hall & Hbad & Hrun)].
      * left. split; [exact Hall|]. rewrite Hrun, <- app_assoc. reflexivity.
      * right. exists (b :: earlier), b', later.
        cbn [app map all_accepted]. rewrite Hp, Hall, Heq. cbn [accepted].
        rewrite Hr. rewrite <- !app_assoc in Hbad, Hrun.
        cbn [app] in Hbad, Hrun.
        split; [reflexivity|]. split; [reflexivity|]. split; [exact Hbad|].
        rewrite Hrun. f_equal. now rewrite <- app_assoc.
    + right. exists [], b, (map (fun i => slice i (i + batch_size) track_uris)
                                starts).
      cbn [app map all_accepted]. rewrite app_nil_r.
      repeat split; try reflexivity; [exact Hr|].
      destruct (post_reply W log (AddTracks playlist_id b)) as [r|msg].
      * cbn [accepted] in Hr. rewrite Hr. reflexivity.
      * reflexivity.
Qed.

End AddTracks.

Lemma py_range_0 (stop step : nat) :
  py_range 0 stop step
  = map (fun k => k * step) (seq 0 ((stop + step - 1) / step)).
Proof. unfold py_range. now rewrite Nat.sub_0_r. Qed.

Lemma slice_batch {A} (i n : nat) (l : list A) :
  slice i (i + n) l = take n (drop i l).
Proof. unfold slice. f_equal. lia. Qed.

Lemma concat_chunks {A} (n : nat) (l : list A) (m : nat) :
  concat (map (fun i => slice i (i + n) l) (map (fun k => k * n) (seq 0 m)))
  = take (m * n) l.
Proof.
  induction m as [|m IH]; [reflexivity|].
  rewrite seq_S, !map_app, concat_app, IH. cbn [map concat Nat.add].
  rewrite app_nil_r, slice_batch, take_take_drop. f_equal. lia.
Qed.

Lemma batches_count_covers (len : nat) :
  len <= (len + batch_size - 1) / batch_size * batch_size
  /\ forall k, k < (len + batch_size - 1) / batch_size -> k * batch_size < len.
Proof.
  unfold batch_size.
  pose proof (Nat.div_mod_eq (len + 100 - 1) 100) as Hd.
  pose proof (Nat.mod_upper_bound (len + 100 - 1) 100) as Hm.
  split; [lia|]. intros k Hk. nia.
Qed.

Lemma concat_batches_of (track_uris : list pystr) :
  concat (batches_of track_uris) = track_uris.
Proof.
  unfold batches_of. rewrite py_range_0, concat_chunks.
  apply take_ge, batches_count_covers.
Qed.

Lemma batches_of_sizes (track_uris : list pystr) :
  Forall (fun b : list pystr => 0 < length b <= batch_size)
         (batches_of track_uris).
Proof.
  unfold batches_of. rewrite py_range_0.
  apply Forall_forall. intros b Hb.
  apply list_elem_of_In, in_map_iff in Hb. destruct Hb as (i & <- & Hi).
  apply in_map_iff in Hi. destruct Hi as (k & <- & Hk).
  apply in_seq in Hk.
  destruct (batches_count_covers (length track_uris)) as [_ Hlt].
  destruct Hk as [_ Hk]. rewrite Nat.add_0_l in Hk. apply Hlt in Hk.
  rewrite slice_batch, length_take, length_drop.
  unfold batch_size in *. lia.
Qed.

(** C9 (as stated, refuted).  Spotify answers the request of the first batch
    with status 429 and [Retry-After: -1]; [_make_request] raises the
    [ValueError] of [time.sleep(-1)].  The request has failed, and
    [add_tracks_to_playlist] does not return [False]: it raises. *)
Lemma add_tracks_raises :
  let uris := [py "spotify:track:1"] in
  let batch := AddTracks (py "playlist1") uris in
  fst (_make_request (fun _ => Response 429 (Some (-1)%Z) None))
  = Raise ValueError
  /\ accepted (post_reply rate_limited_world [] batch) = false
  /\ add_tracks_to_playlist rate_limited_world (py "playlist1") uris []
     = (Raised (py "sleep length must be non-negative"), [batch])
  /\ fst (add_tracks_to_playlist rate_limited_world (py "playlist1") uris [])
     <> Returned false.
Proof. vm_compute. repeat split; try reflexivity. discriminate. Qed.

(** C9 (amended).  [add_tracks_to_playlist] posts a prefix [sent] of the
    batches of the list and then returns or raises.  The batches are
    consecutive slices of at most 100 URIs (none empty) whose concatenation
    is the list; they are posted in order, and what was posted is a prefix of
    the list.  The result is [True] exactly when every batch was accepted (a
    non-empty body came back), and then what was posted is the whole list.
    At the first batch that is not accepted the operation stops, no later
    batch being posted: it returns [False] when the request returned [None]
    or an empty body, and raises the exception of the request when the
    request raised. *)
Theorem add_tracks_in_batches (W : World) (playlist_id : pystr)
    (track_uris : list pystr) (log : list request) :
  exists (result : outcome bool) (sent : list (list pystr)),
    add_tracks_to_playlist W playlist_id track_uris log
    = (result, log ++ map (AddTracks playlist_id) sent)
    /\ sent `prefix_of` batches_of track_uris
    /\ Forall (fun b : list pystr => 0 < length b <= 100)
              (batches_of track_uris)
    /\ concat (batches_of track_uris) = track_uris
    /\ concat sent `prefix_of` track_uris
    /\ (result = Returned true
        <-> all_accepted W playlist_id log (batches_of track_uris) = true)
    /\ (result = Returned true ->
        sent = batches_of track_uris /\ concat sent = track_uris)
    /\ (result <> Returned true ->
        exists earlier b later,
          batches_of track_uris = earlier ++ b :: later
          /\ all_accepted W playlist_id log earlier = true
          /\ accepted
               (post_reply W (log ++ map (AddTracks playlist_id) earlier)
                           (AddTracks playlist_id b)) = false)
    /\ (forall earlier b later,
          batches_of track_uris = earlier ++ b :: later ->
          all_accepted W playlist_id log earlier = true ->
          accepted
            (post_reply W (log ++ map (AddTracks playlist_id) earlier)
                        (AddTracks playlist_id b)) = false ->
          sent = earlier ++ [b]
          /\ result
             = stopped
                 (post_reply W (log ++ map (AddTracks playlist_id) earlier)
                             (AddTracks playlist_id b))).
Proof.
  pose proof (concat_batches_of track_uris) as Hcat.
  pose proof (batches_of_sizes track_uris) as Hsz.
  unfold add_tracks_to_playlist.
  destruct (add_batches_spec W playlist_id track_uris
              (py_range 0 (length track_uris) batch_size) log)
    as [[Hall Hrun]|(earlier & b & later & Heq & Hall & Hbad & Hrun)];
    fold (batches_of track_uris) in *.
  - exists (Returned true), (batches_of track_uris).
    split; [exact Hrun|]. split; [reflexivity|]. split; [exact Hsz|].
    split; [exact Hcat|]. split; [now rewrite Hcat|].
    split; [split; auto|]. split; [auto|]. split; [congruence|].
    intros earlier b later Heq Ha Hb. exfalso.
    rewrite Heq, all_accepted_app in Hall. cbn [all_accepted] in Hall.
    rewrite Hb, andb_false_r in Hall. discriminate.
  - set (reply := post_reply W (log ++ map (AddTracks playlist_id) earlier)
                             (AddTracks playlist_id b)) in *.
    assert (Hres : stopped reply <> Returned true)
      by (destruct reply; discriminate).
    assert (Hnot : all_accepted W playlist_id log (batches_of track_uris)
                   = false).
    { rewrite Heq, all_accepted_app. cbn [all_accepted]. fold reply.
      now rewrite Hbad, andb_false_r. }
    exists (stopped reply), (earlier ++ [b]).
    split; [exact Hrun|].
    split; [exists later; rewrite Heq, <- app_assoc; reflexivity|].
    split; [exact Hsz|]. split; [exact Hcat|].
    split.
    { exists (concat later).
      rewrite <- Hcat, Heq, !concat_app. cbn [concat].
      now rewrite app_nil_r, <- app_assoc. }
    split; [split; [contradiction|congruence]|].
    split; [contradiction|].
    split; [intros _; exists earlier, b, later; auto|].
    intros earlier' b' later' Heq' Ha' Hb'.
    rewrite Heq in Heq'.
    destruct (first_refused_unique W playlist_id _ _ _ _ _ _ log Heq'
                Hall Hbad Ha' Hb') as [<- <-].
    split; reflexivity.
Qed.

(** ** Stripping white space *)

Section Strip.
Implicit Types (s : pystr) (c : N).

Lemma lstrip_suffix s : lstrip s `suffix_of` s.
Proof.
  induction s as [|c s IH]; [reflexivity|]. cbn.
  destruct (isspace c); [now apply suffix_cons_r|reflexivity].
Qed.

Lemma lstrip_head s c y : lstrip s = c :: y -> isspace c = false.
Proof.
  induction s as [|d s IH]; [discriminate|]. cbn.
  destruct (isspace d) eqn:E; [exact IH|]. intros [= <- _]. exact E.
Qed.

Lemma lstrip_fix s :
  (forall c y, s = c :: y -> isspace c = false) -> lstrip s = s.
Proof.
  destruct s as [|c y]; [reflexivity|]. intros H. cbn.
  now rewrite (H c y eq_refl).
Qed.

Lemma lstrip_idemp s : lstrip (lstrip s) = lstrip s.
Proof. apply lstrip_fix. intros c y. apply lstrip_head. Qed.

Lemma lstrip_nil s : lstrip s = [] <-> forallb isspace s = true.
Proof.
  induction s as [|c s IH]; [easy|]. cbn.
  destruct (isspace c); [exact IH|]. split; discriminate.
Qed.

Lemma strip_head s c y : strip s = c :: y -> isspace c = false.
Proof.
  unfold strip, rstrip. intros H.
  destruct (lstrip_suffix (rev (lstrip s))) as [k Hk].
  assert (Hr : lstrip s = rev (lstrip (rev (lstrip s))) ++ rev k).
  { rewrite <- rev_app_distr, <- Hk. now rewrite rev_involutive. }
  rewrite H in Hr. eapply lstrip_head. exact Hr.
Qed.

Lemma strip_last s c y : strip s = y ++ [c] -> isspace c = false.
Proof.
  unfold strip, rstrip. intros H.
  apply (f_equal (@rev N)) in H. rewrite rev_involutive, rev_unit in H.
  eapply lstrip_head. exact H.
Qed.

Lemma strip_trimmed s : trimmed (strip s).
Proof. split; intros c y H; [eapply strip_head|eapply strip_last]; eauto. Qed.

Lemma trimmed_strip s : trimmed s -> strip s = s.
Proof.
  intros [Hh Hl]. unfold strip, rstrip. rewrite (lstrip_fix s Hh).
  rewrite lstrip_fix; [apply rev_involutive|].
  intros c y H. apply (f_equal (@rev N)) in H.
  rewrite rev_involutive in H. cbn in H. eapply Hl. exact H.
Qed.

Lemma strip_idemp s : strip (strip s) = strip s.
Proof. apply trimmed_strip, strip_trimmed. Qed.

Lemma strip_infix s : exists a b, s = a ++ strip s ++ b.
Proof.
  unfold strip, rstrip.
  destruct (lstrip_suffix s) as [a Ha].
  destruct (lstrip_suffix (rev (lstrip s))) as [k Hk].
  exists a, (rev k). rewrite <- rev_app_distr, <- Hk, rev_involutive.
  exact Ha.
Qed.

Lemma strip_nil s : strip s = [] <-> forallb isspace s = true.
Proof.
  unfold strip, rstrip. split.
  - intros H. apply (f_equal (@rev N)) in H. rewrite rev_involutive in H.
    cbn in H. apply lstrip_nil in H.
    destruct (lstrip s) as [|c y] eqn:E; [now apply lstrip_nil|].
    pose proof (lstrip_head _ _ _ E) as Hc.
    rewrite forallb_forall in H. specialize (H c).
    rewrite H in Hc; [discriminate|]. apply in_rev. rewrite rev_involutive.
    now left.
  - intros H. apply lstrip_nil in H. now rewrite H.
Qed.

End Strip.

(** ** Cleaning channel names *)

Section CleanChannel.
Implicit Types (t q cleaned : pystr).

Lemma endswith_true s t : endswith s t = true <-> t `suffix_of` s.
Proof. apply bool_decide_eq_true. Qed.

Lemma endswith_false s t : endswith s t = false <-> ~ t `suffix_of` s.
Proof. apply bool_decide_eq_false. Qed.

Lemma remove_suffix_prefix cleaned t : remove_suffix cleaned t `prefix_of` cleaned.
Proof.
  unfold remove_suffix, drop_last.
  destruct (endswith cleaned (py " " ++ t)); [apply prefix_take|].
  destruct (endswith cleaned t); [apply prefix_take|reflexivity].
Qed.

Lemma remove_suffix_miss cleaned t :
  endswith cleaned t = false -> remove_suffix cleaned t = cleaned.
Proof.
  intros H. unfold remove_suffix. rewrite H.
  destruct (endswith cleaned (py " " ++ t)) eqn:E; [|reflexivity].
  apply endswith_true, suffix_app_l in E. apply endswith_false in H.
  contradiction.
Qed.

(** A suffix at the end is removed, with the space before it if there is
    one. *)
Lemma remove_suffix_hit q t :
  remove_suffix (q ++ t) t
  = if endswith (q ++ t) (py " " ++ t) then take (length q - 1) q else q.
Proof.
  unfold remove_suffix, drop_last.
  destruct (endswith (q ++ t) (py " " ++ t)) eqn:E.
  - rewrite !length_app. cbn [py length].
    replace (length q + length t - (1 + length t)) with (length q - 1) by lia.
    apply take_app_le. lia.
  - replace (endswith (q ++ t) t) with true
      by (symmetry; apply endswith_true; now exists q).
    rewrite length_app.
    replace (length q + length t - length t) with (length q) by lia.
    apply take_app_length.
Qed.

Lemma remove_suffixes_prefix (suffixes : list pystr) cleaned :
  fold_left remove_suffix suffixes cleaned `prefix_of` cleaned.
Proof.
  revert cleaned. induction suffixes as [|t suffixes IH]; intros cleaned;
    [reflexivity|].
  cbn. etransitivity; [apply IH|apply remove_suffix_prefix].
Qed.

Lemma remove_suffixes_miss (suffixes : list pystr) cleaned :
  existsb (endswith cleaned) suffixes = false ->
  fold_left remove_suffix suffixes cleaned = cleaned.
Proof.
  induction suffixes as [|t suffixes IH]; [reflexivity|]. cbn.
  intros H. apply orb_false_iff in H. destruct H as [Ht Hs].
  rewrite (remove_suffix_miss _ _ Ht). exact (IH Hs).
Qed.

Lemma remove_suffixes_hit (suffixes : list pystr) q t :
  incomparable suffixes = true ->
  In t suffixes ->
  fold_left remove_suffix suffixes (q ++ t) `prefix_of` q.
Proof.
  unfold incomparable. intros Hinc Hin.
  assert (Hcmp : forall t', In t' suffixes -> t' <> t ->
                   endswith (q ++ t) t' = false).
  { intros t' Ht' Hne. apply endswith_false. intros Hsuf.
    rewrite forallb_forall in Hinc.
    pose proof (Hinc t Hin) as H1. pose proof (Hinc t' Ht') as H2.
    rewrite forallb_forall in H1, H2.
    specialize (H1 t' Ht'). specialize (H2 t Hin).
    unfold str_eqb in H1, H2.
    rewrite !bool_decide_decide in H1, H2.
    destruct (decide (t = t')) as [->|_]; [contradiction|].
    destruct (decide (t' = t)) as [->|_]; [contradiction|].
    cbn in H1, H2. apply negb_true_iff in H1, H2.
    apply endswith_false in H1, H2.
    destruct (suffix_weak_total t' t (q ++ t) Hsuf) as [H|H];
      [now exists q|contradiction|contradiction]. }
  clear Hinc. revert Hin Hcmp.
  induction suffixes as [|t0 suffixes IH]; [contradiction|].
  intros Hin Hcmp. cbn [fold_left].
  destruct (decide (t0 = t)) as [->|Hne].
  - etransitivity; [apply remove_suffixes_prefix|].
    rewrite remove_suffix_hit.
    destruct (endswith _ _); [apply prefix_take|reflexivity].
  - rewrite remove_suffix_miss by (apply Hcmp; [now left|exact Hne]).
    apply IH.
    + destruct Hin as [->|Hin]; [contradiction|exact Hin].
    + intros t' Ht'. apply Hcmp. now right.
Qed.

Lemma suffixes_incomparable : incomparable suffixes_to_remove = true.
Proof. vm_compute. reflexivity. Qed.

End CleanChannel.

(** C4 (as stated, refuted).  "ATV" ends with the bare suffix "TV", not with
    " TV"; the cleaner strips it all the same and returns "A". *)
Lemma clean_ATV :
  endswith (py "ATV") (py " TV") = false
  /\ endswith (py "ATV") (py "TV") = true
  /\ _clean_channel_name (py "ATV") = py "A"
  /\ _clean_channel_name (py "ATV") <> py "ATV".
Proof. vm_compute. repeat split; try reflexivity. discriminate. Qed.

(** C4 (amended).  A publisher string that ends with one of the suffixes of
    the list loses it, also where the suffix is a bare trailing substring
    not preceded by a space: the turn of the loop for that suffix removes
    it, together with the space before it when there is one, and what the
    cleaner returns is a part of what stood before the suffix. *)
Theorem clean_removes_bare_suffix (q t : pystr) :
  In t suffixes_to_remove ->
  remove_suffix (q ++ t) t
  = (if endswith (q ++ t) (py " " ++ t) then take (length q - 1) q else q)
  /\ exists a b, q = a ++ _clean_channel_name (q ++ t) ++ b.
Proof.
  intros Hin. split; [apply remove_suffix_hit|].
  unfold _clean_channel_name.
  assert (Ht : truthy (q ++ t) = true).
  { destruct t; [|now destruct q].
    exfalso. revert Hin. vm_compute. intuition discriminate. }
  rewrite Ht. cbn [negb].
  destruct (remove_suffixes_hit suffixes_to_remove q t suffixes_incomparable
              Hin) as [k Hk].
  destruct (strip_infix (fold_left remove_suffix suffixes_to_remove (q ++ t)))
    as (a & b & Hab).
  exists a, (b ++ k). rewrite Hk at 1. rewrite Hab at 1.
  now rewrite <- !app_assoc.
Qed.

Lemma clean_removes_bare_suffix_witness :
  In (py "TV") suffixes_to_remove
  /\ remove_suffix (py "A" ++ py "TV") (py "TV") = py "A"
  /\ exists a b, py "A" = a ++ _clean_channel_name (py "A" ++ py "TV") ++ b.
Proof.
  assert (Hin : In (py "TV") suffixes_to_remove)
    by (vm_compute; repeat (try (left; reflexivity); right)).
  split; [exact Hin|].
  destruct (clean_removes_bare_suffix (py "A") (py "TV") Hin) as [H1 H2].
  split; [exact H1|exact H2].
Defined.

(** C5 (as stated, refuted).  One pass over the suffixes does not reach a
    fixed point: "TVTV" is cleaned to "TV", and "TV" to the empty string. *)
Lemma clean_not_idempotent :
  _clean_channel_name (py "TVTV") = py "TV"
  /\ _clean_channel_name (_clean_channel_name (py "TVTV")) = []
  /\ _clean_channel_name (_clean_channel_name (py "TVTV"))
     <> _clean_channel_name (py "TVTV")
  /\ _clean_channel_name (py "A Official Music") = py "A Official"
  /\ _clean_channel_name (py "A Official") = py "A".
Proof. vm_compute. repeat split; try reflexivity. discriminate. Qed.

(** C5 (amended).  Cleaning a cleaned name again changes nothing when the
    cleaned name ends with none of the suffixes of the list. *)
Theorem clean_idempotent_without_suffix (p : pystr) :
  existsb (endswith (_clean_channel_name p)) suffixes_to_remove = false ->
  _clean_channel_name (_clean_channel_name p) = _clean_channel_name p.
Proof.
  intros H. unfold _clean_channel_name at 1.
  destruct (truthy (_clean_channel_name p)) eqn:E; cbn [negb].
  - rewrite (remove_suffixes_miss _ _ H).
    unfold _clean_channel_name. destruct (negb (truthy p)); [reflexivity|].
    apply strip_idemp.
  - destruct (_clean_channel_name p); [reflexivity|discriminate].
Qed.

Lemma clean_idempotent_without_suffix_witness :
  existsb (endswith (_clean_channel_name (py "Adele VEVO")))
          suffixes_to_remove = false
  /\ _clean_channel_name (py "Adele VEVO") = py "Adele"
  /\ _clean_channel_name (_clean_channel_name (py "Adele VEVO"))
     = _clean_channel_name (py "Adele VEVO").
Proof.
  split; [vm_compute; reflexivity|]. split; [vm_compute; reflexivity|].
  apply (clean_idempotent_without_suffix (py "Adele VEVO")).
  vm_compute. reflexivity.
Defined.

(** ** The matcher *)

Section MatcherFacts.
Variable ignorecase : bool.
Implicit Types (k : nat -> pystr -> option mstate) (st m : mstate).

Lemma rep_inv (p : N -> bool) (greedy : bool) k m (s : pystr) :
  forall min i,
  rep p greedy k min i s = Some m ->
  exists n, min <= n <= length s /\ forallb p (take n s) = true
            /\ k (i + n) (drop n s) = Some m.
Proof.
  induction s as [|c s IH]; intros min i; cbn [rep].
  - destruct min; cbn; [|discriminate]. intros H. exists 0.
    rewrite Nat.add_0_r. auto.
  - assert (Hmore : forall min',
              (if p c then rep p greedy k min' (S i) s else None) = Some m ->
              exists n, S min' <= n <= length (c :: s)
                        /\ forallb p (take n (c :: s)) = true
                        /\ k (i + n) (drop n (c :: s)) = Some m).
    { intros min' H. destruct (p c) eqn:Hc; [|discriminate].
      destruct (IH _ _ H) as (n & Hn & Hp & Hk). exists (S n). cbn.
      rewrite Hc, Hp, <- Nat.add_succ_comm. repeat split; auto; lia. }
    assert (Hnone : k i (c :: s) = Some m ->
              exists n, 0 <= n <= length (c :: s)
                        /\ forallb p (take n (c :: s)) = true
                        /\ k (i + n) (drop n (c :: s)) = Some m).
    { intros H. exists 0. rewrite Nat.add_0_r. cbn. repeat split; auto; lia. }
    destruct min as [|min']; cbn [Nat.eqb negb Nat.pred].
    + destruct greedy.
      * destruct (if p c then rep p true k 0 (S i) s else None) eqn:E.
        -- intros [= <-]. destruct (Hmore 0 E) as (n & Hn & H).
           exists n. split; [lia|exact H].
        -- exact Hnone.
      * destruct (k i (c :: s)) eqn:E.
        -- intros [= <-]. auto.
        -- intros H. destruct (Hmore 0 H) as (n & Hn & H').
           exists n. split; [lia|exact H'].
    + exact (Hmore min').
Qed.

Lemma lits_inv (l : pystr) k m :
  forall i (s : pystr),
  lits ignorecase l k i s = Some m ->
  length l <= length s /\ k (i + length l) (drop (length l) s) = Some m.
Proof.
  induction l as [|x l IH]; intros i s; cbn [lits length drop].
  - rewrite Nat.add_0_r. split; [lia|assumption].
  - destruct s as [|c s]; [discriminate|].
    destruct (lit_match ignorecase x c); [|discriminate].
    intros H. destruct (IH _ _ H) as [Hl Hk]. cbn.
    rewrite <- Nat.add_succ_comm. split; [lia|exact Hk].
Qed.

Lemma run_reach (pat : list atom) :
  forall st m, run ignorecase pat st = Some m -> reach ignorecase pat st m.
Proof.
  induction pat as [|a pat IH]; intros st m; cbn [run reach].
  - now intros [= <-].
  - destruct a as [cs|cs min greedy|alts|g|g| |]; cbn [atom_reach].
    + destruct (rest st) as [|c s'] eqn:Hr; [discriminate|].
      destruct (cset_mem ignorecase cs c) eqn:Hc; [|discriminate].
      intros H. eexists. split; [|apply IH, H]. eauto.
    + intros H. apply rep_inv in H. destruct H as (n & Hn & Hp & Hk).
      eexists. split; [|apply IH, Hk]. eauto.
    + intros H.
      assert (exists l, In l alts
                /\ lits ignorecase l
                     (fun i s => run ignorecase pat
                                   (MState i s (opened st) (spans st)))
                     (pos st) (rest st) = Some m) as (l & Hin & Hl).
      { induction alts as [|l alts IHa]; [discriminate|]. cbn in H.
        unfold first_some in H at 1.
        destruct (lits ignorecase l _ (pos st) (rest st)) eqn:E.
        - exists l. split; [now left|]. now rewrite E.
        - destruct (IHa H) as (l' & Hin & Hl'). exists l'.
          split; [now right|exact Hl']. }
      apply lits_inv in Hl. destruct Hl as [Hlen Hk].
      eexists. split; [|apply IH, Hk]. eauto.
    + intros H. eexists. split; [reflexivity|apply IH, H].
    + destruct (lookup_nat g (opened st)) as [b|] eqn:Hb; [|discriminate].
      intros H. eexists. split; [|apply IH, H]. eauto.
    + destruct (Nat.eqb (pos st) 0) eqn:Hp; [|discriminate].
      apply Nat.eqb_eq in Hp. intros H. exists st. auto.
    + destruct (rest st) as [|c [|d s']] eqn:Hr; try discriminate.
      * intros H. exists st. auto.
      * destruct (c =? 10)%N eqn:Hc; [|discriminate].
        apply N.eqb_eq in Hc. subst c. intros H. exists st. auto.
Qed.

Lemma reach_app (p1 p2 : list atom) :
  forall st m,
  reach ignorecase (p1 ++ p2) st m ->
  exists st1, reach ignorecase p1 st st1 /\ reach ignorecase p2 st1 m.
Proof.
  induction p1 as [|a p1 IH]; intros st m; cbn [app reach].
  - intros H. exists st. auto.
  - intros (st0 & Ha & H). destruct (IH _ _ H) as (st1 & H1 & H2).
    exists st1. split; [exists st0; auto|exact H2].
Qed.

(** A separator moves forward in the subject and keeps the groups. *)
Lemma reach_consumes (sep : list atom) :
  forallb consumes_only sep = true ->
  forall st m,
  reach ignorecase sep st m ->
  exists n, n <= length (rest st)
            /\ m = MState (pos st + n) (drop n (rest st))
                          (opened st) (spans st).
Proof.
  induction sep as [|a sep IH]; cbn [forallb reach]; intros Hc st m.
  - intros ->. exists 0. rewrite Nat.add_0_r. split; [lia|].
    now destruct st.
  - apply andb_true_iff in Hc. destruct Hc as [Ha Hc].
    intros (st1 & H1 & H2).
    destruct (IH Hc _ _ H2) as (n2 & Hn2 & ->).
    assert (exists n1, n1 <= length (rest st)
              /\ st1 = MState (pos st + n1) (drop n1 (rest st))
                              (opened st) (spans st)) as (n1 & Hn1 & ->).
    { destruct a; try discriminate; cbn [atom_reach] in H1.
      - destruct H1 as (c & s' & Hr & _ & ->). exists 1.
        rewrite Hr, Nat.add_1_r. cbn. split; [lia|reflexivity].
      - destruct H1 as (n & Hn & _ & ->). exists n. split; [lia|reflexivity].
      - destruct H1 as (l & _ & Hl & ->). exists (length l). auto. }
    cbn [pos rest opened spans] in *. exists (n1 + n2).
    rewrite length_drop in Hn2. rewrite drop_drop, Nat.add_assoc.
    split; [lia|reflexivity].
Qed.

End MatcherFacts.

(** ** The separator patterns on cleaned titles *)

Section Patterns.
Implicit Types (text : pystr) (sep : list atom).

Lemma ngroups_app (p1 p2 : list atom) :
  ngroups (p1 ++ p2) = ngroups p1 + ngroups p2.
Proof. unfold ngroups. now rewrite List.filter_app, length_app. Qed.

Lemma ngroups_consumes sep :
  forallb consumes_only sep = true -> ngroups sep = 0.
Proof.
  unfold ngroups. induction sep as [|a sep IH]; [reflexivity|]. cbn.
  intros H. apply andb_true_iff in H. destruct H as [Ha Hs].
  destruct a; try discriminate; exact (IH Hs).
Qed.

(** A match of [^(.+?)<sep>(.+)$]: group 1 starts the text and is not
    empty, group 2 is not empty and ends the text (or stands before a last
    newline). *)
Lemma two_sides_match sep text (l : list pystr) :
  forallb consumes_only sep = true ->
  re_match true (two_sides sep) text = Some l ->
  exists j b e,
    1 <= j <= length text /\ b < e <= length text
    /\ (drop e text = [] \/ drop e text = [10%N])
    /\ l = [take j text; slice b e text].
Proof.
  intros Hsep. unfold re_match, match_at.
  destruct (run true (two_sides sep) (MState 0 text [] [])) as [m|] eqn:Hrun;
    [|discriminate].
  intros [= <-]. apply run_reach in Hrun. unfold two_sides in Hrun.
  apply reach_app in Hrun. destruct Hrun as (st1 & H1 & Hrun).
  apply reach_app in Hrun. destruct Hrun as (st2 & H2 & H3).
  cbn [reach atom_reach plus_lazy] in H1.
  destruct H1 as (? & [_ ->] & ? & -> & ? & (j & Hj & _ & ->) & ?
                  & (b1 & Hb1 & ->) & ->).
  cbn in Hb1. injection Hb1 as <-.
  apply (reach_consumes true sep Hsep) in H2.
  destruct H2 as (n2 & Hn2 & ->).
  cbn [reach atom_reach plus pos rest opened spans] in H3, Hj, Hn2.
  destruct H3 as (? & -> & ? & (n3 & Hn3 & _ & ->) & ?
                  & (b2 & Hb2 & ->) & ? & [Hend ->] & ->).
  cbn in Hb2. injection Hb2 as <-.
  cbn [pos rest opened spans] in *.
  rewrite !length_drop in *. rewrite !drop_drop in Hend.
  exists j, (j + n2), (j + n2 + n3).
  repeat split; try lia; [now rewrite <- Nat.add_assoc|].
  unfold groups, two_sides.
  rewrite !ngroups_app, (ngroups_consumes sep Hsep). cbn.
  unfold slice. rewrite Nat.sub_0_r. reflexivity.
Qed.

(** One atom of a [reach] hypothesis: name what it did and move on. *)
Ltac reach_step H :=
  let st := fresh "st" in
  let Ha := fresh "Ha" in
  cbn [reach] in H; destruct H as (st & Ha & H);
  cbn [atom_reach plus plus_lazy star star_lazy] in Ha;
  repeat match type of Ha with
         | exists _, _ => destruct Ha as (? & Ha)
         | _ /\ _ => let H1 := fresh "Hs" in destruct Ha as (H1 & Ha)
         end;
  subst st; cbn [pos rest opened spans] in *.

(** A match of the quoted pattern: group 1 starts the text and is not
    empty. *)
Lemma quoted_match (p : pattern) text (l : list pystr) :
  nth_error patterns 4 = Some p ->
  re_match true (prog p) text = Some l ->
  exists j b e,
    1 <= j <= length text /\ l = [take j text; slice b e text].
Proof.
  intros [= <-]. unfold re_match, match_at. cbn [prog].
  match goal with
  | |- context [run true ?pat ?st] =>
      destruct (run true pat st) as [m|] eqn:Hrun; [|discriminate]
  end.
  intros [= <-]. apply run_reach in Hrun.
  do 11 reach_step Hrun. cbn [reach] in Hrun. subst m.
  match goal with
  | Hj : 1 <= ?j <= length text,
    H1 : lookup_nat 1 _ = Some ?b1,
    H2 : lookup_nat 2 [(2, ?b); _] = Some ?b2
    |- context [(2, (_, ?e))] =>
      cbn in H1, H2; injection H1 as <-; injection H2 as <-;
      exists j, b, e; split; [exact Hj|]
  end.
  unfold groups, slice. cbn [ngroups List.filter length seq map lookup_nat
    find fst snd spans Nat.eqb fmap option_fmap option_map].
  rewrite Nat.sub_0_r. reflexivity.
Qed.

Lemma strip_take_nonempty text (j : nat) :
  trimmed text -> 1 <= j <= length text -> strip (take j text) <> [].
Proof.
  intros [Hh _] Hj H. apply strip_nil in H.
  destruct text as [|c y]; [cbn in Hj; lia|].
  destruct j; [lia|]. cbn in H. now rewrite (Hh c y eq_refl) in H.
Qed.

Lemma strip_slice_nonempty text (b e : nat) :
  trimmed text -> b < e <= length text ->
  drop e text = [] \/ drop e text = [10%N] ->
  strip (slice b e text) <> [].
Proof.
  intros [_ Hl] Hbe Hend H. apply strip_nil in H.
  assert (He : e = length text).
  { destruct Hend as [Hend|Hend].
    - apply (f_equal length) in Hend. rewrite length_drop in Hend.
      cbn in Hend. lia.
    - pose proof (take_drop e text) as Ht. rewrite Hend in Ht.
      symmetry in Ht. apply Hl in Ht. discriminate. }
  subst e. unfold slice in H.
  rewrite take_ge in H by (rewrite length_drop; lia).
  destruct (exists_last (l := drop b text)) as (y & c & Hy).
  { intros Hn. apply (f_equal length) in Hn. rewrite length_drop in Hn.
    cbn in Hn. lia. }
  pose proof (take_drop b text) as Ht. rewrite Hy, app_assoc in Ht.
  symmetry in Ht. apply Hl in Ht.
  rewrite Hy, forallb_app in H. cbn in H. rewrite Ht in H.
  now rewrite andb_false_r in H.
Qed.

(** The hyphen, colon, [by] and pipe patterns are [two_sides] patterns. *)
Lemma first_four_two_sides (p : pattern) :
  In p (take 4 patterns) ->
  exists sep, prog p = two_sides sep /\ forallb consumes_only sep = true.
Proof.
  unfold patterns. cbn [firstn In].
  intros [<-|[<-|[<-|[<-|[]]]]]; cbn [prog]; eexists;
    (split; [reflexivity|reflexivity]).
Qed.

Lemma two_sides_nonempty (p : pattern) text (l : list pystr) :
  trimmed text ->
  In p (take 4 patterns) ->
  re_match true (prog p) text = Some l ->
  exists g0 g1, l = [g0; g1] /\ strip g0 <> [] /\ strip g1 <> [].
Proof.
  intros Ht Hp Hm. destruct (first_four_two_sides p Hp) as (sep & Hprog & Hsep).
  rewrite Hprog in Hm.
  destruct (two_sides_match sep text l Hsep Hm)
    as (j & b & e & Hj & Hbe & Hend & ->).
  eexists _, _. split; [reflexivity|]. split.
  - now apply strip_take_nonempty.
  - now apply strip_slice_nonempty.
Qed.

Lemma clean_text_trimmed (label : pystr) : trimmed (clean_text label).
Proof. unfold clean_text. apply strip_trimmed. Qed.

End Patterns.

(** ** [parse_title] *)

Section ParseTitle.
Implicit Types (text : pystr) (p q : pattern).

Lemma parse_loop_skip (before after : list pattern) text :
  Forall (no_match text) before ->
  parse_loop (before ++ after) text = parse_loop after text.
Proof.
  induction 1 as [|q before Hq _ IH]; [reflexivity|].
  cbn [app parse_loop]. unfold no_match in Hq. now rewrite Hq.
Qed.

Lemma parse_loop_hit p (after : list pattern) text (g0 g1 : pystr) :
  re_match true (prog p) text = Some [g0; g1] ->
  parse_loop (p :: after) text
  = if contains (py "by") (source p) then (strip g1, strip g0)
    else (strip g0, strip g1).
Proof. intros H. cbn [parse_loop]. now rewrite H. Qed.

Lemma patterns_split :
  exists quoted, nth_error patterns 4 = Some quoted
                 /\ patterns = take 4 patterns ++ [quoted].
Proof. eexists. split; reflexivity. Qed.

Lemma match_two_groups p text (l : list pystr) :
  In p patterns ->
  re_match true (prog p) text = Some l -> length l = 2.
Proof.
  unfold re_match. intros Hp.
  destruct (match_at true (prog p) 0 text) as [m|]; [|discriminate].
  intros [= <-]. unfold groups. rewrite length_map, length_seq.
  cbn in Hp. destruct Hp as [<-|[<-|[<-|[<-|[<-|[]]]]]]; reflexivity.
Qed.

(** Group 1 of any matching pattern is not blank on a trimmed text. *)
Lemma match_left_nonempty p text (g0 g1 : pystr) :
  trimmed text ->
  In p patterns ->
  re_match true (prog p) text = Some [g0; g1] ->
  strip g0 <> [].
Proof.
  intros Ht Hp Hm. destruct patterns_split as (quoted & Hq & Hsplit).
  rewrite Hsplit in Hp. apply in_app_iff in Hp. destruct Hp as [Hp|[<-|[]]].
  - destruct (two_sides_nonempty p text _ Ht Hp Hm) as (? & ? & [= <- <-] & H & _).
    exact H.
  - destruct (quoted_match quoted text _ Hq Hm) as (j & b & e & Hj & [= -> ->]).
    now apply strip_take_nonempty.
Qed.

(** The loop over the first four patterns: one of them matches and gives
    two sides that are not blank, or none matches. *)
Lemma parse_loop_two_sides (pats after : list pattern) text :
  trimmed text ->
  (forall p, In p pats -> In p (take 4 patterns)) ->
  (fst (parse_loop (pats ++ after) text) <> []
   /\ snd (parse_loop (pats ++ after) text) <> [])
  \/ Forall (no_match text) pats.
Proof.
  intros Ht. induction pats as [|p pats IH]; intros Hin; [right; constructor|].
  destruct (re_match true (prog p) text) as [l|] eqn:Hm.
  - left.
    destruct (two_sides_nonempty p text l Ht (Hin p (or_introl eq_refl)) Hm)
      as (g0 & g1 & -> & H0 & H1).
    cbn [app]. rewrite (parse_loop_hit _ _ _ _ _ Hm).
    destruct (contains _ _); cbn; auto.
  - destruct IH as [IH|IH]; [intros q Hq; apply Hin; now right| |].
    + left. cbn [app parse_loop]. now rewrite Hm.
    + right. now constructor.
Qed.

End ParseTitle.

(** C2 (as stated, refuted).  On the cleaned label [A " "] the first four
    patterns do not match, the quoted pattern matches with the quoted text
    " ", and [parse_title] returns the artist "A" with an empty title. *)
Lemma quoted_pattern_keeps_blank_title :
  let label := py "A " ++ [dq] ++ py " " ++ [dq] in
  clean_text label = label
  /\ map (fun p => re_match true (prog p) label) patterns
     = [None; None; None; None; Some [py "A"; py " "]]
  /\ parse_title label = (py "A", []).
Proof. vm_compute. repeat split; reflexivity. Qed.

(** C2 (amended).  The first pattern of the list that matches the cleaned
    label decides the result, whatever its sides are after trimming: the
    pair of its trimmed groups, swapped for the [by] pattern.  A pattern is
    passed over only when it does not match (a match always has two groups).
    The left group of a match is never blank; the right group of the hyphen,
    colon, [by] and pipe patterns is never blank either; only the quoted
    text of the quoted pattern can be blank, and it is kept. *)
Theorem parse_title_first_match (label : pystr) (before after : list pattern)
    (p : pattern) (g0 g1 : pystr) :
  patterns = before ++ p :: after ->
  Forall (fun q => re_match true (prog q) (clean_text label) = None) before ->
  re_match true (prog p) (clean_text label) = Some [g0; g1] ->
  parse_title label
  = (if contains (py "by") (source p) then (strip g1, strip g0)
     else (strip g0, strip g1))
  /\ strip g0 <> []
  /\ (In p (take 4 patterns) -> strip g1 <> [])
  /\ (forall q l, In q patterns ->
        re_match true (prog q) (clean_text label) = Some l -> length l = 2).
Proof.
  intros Hpat Hbefore Hm.
  pose proof (clean_text_trimmed label) as Ht.
  assert (Hin : In p patterns) by (rewrite Hpat; apply in_elt).
  split; [|split; [|split]].
  - unfold parse_title. rewrite Hpat.
    rewrite (parse_loop_skip _ _ _ Hbefore). now apply parse_loop_hit.
  - exact (match_left_nonempty _ _ _ _ Ht Hin Hm).
  - intros H4.
    destruct (two_sides_nonempty p _ _ Ht H4 Hm) as (? & ? & [= <- <-] & _ & H).
    exact H.
  - intros q l. apply match_two_groups.
Qed.

Lemma parse_title_first_match_witness :
  let label := py "A " ++ [dq] ++ py " " ++ [dq] in
  parse_title label = (strip (py "A"), strip (py " "))
  /\ strip (py "A") <> [].
Proof.
  cbv zeta.
  destruct (parse_title_first_match
              (py "A " ++ [dq] ++ py " " ++ [dq])
              (take 4 patterns) []
              (List.nth 4 patterns (Pattern [] []))
              (py "A") (py " ")) as (H1 & H2 & _).
  - reflexivity.
  - repeat constructor; vm_compute; reflexivity.
  - vm_compute. reflexivity.
  - split; [exact H1|exact H2].
Defined.

(** C3 (as stated, refuted).  The label "[Official Video]" is not empty, its
    cleaned form is, and so is the title parsed from it; the same holds for
    "(Live) [HD]". *)
Lemma decoration_only_title_empty :
  py "[Official Video]" <> []
  /\ clean_text (py "[Official Video]") = []
  /\ parse_title (py "[Official Video]") = ([], [])
  /\ parse_title (py "(Live) [HD]") = ([], []).
Proof. vm_compute. repeat split; try reflexivity. discriminate. Qed.

Lemma parse_loop_nil : parse_loop patterns [] = ([], []).
Proof. vm_compute. reflexivity. Qed.

(** C3 (amended).  The title parsed is empty in two cases only: the cleaned
    label is empty, or the quoted pattern is the first to match and its
    quoted text is blank.  When the cleaned label is empty, artist and title
    are both empty.  When no pattern matches, the whole cleaned label becomes
    the title and the artist is empty. *)
Theorem title_nonempty_for_cleaned_label (label : pystr) :
  (snd (parse_title label) = []
   <-> clean_text label = []
       \/ exists quoted g0 g1,
            nth_error patterns 4 = Some quoted
            /\ Forall (fun q => re_match true (prog q) (clean_text label)
                                = None)
                      (take 4 patterns)
            /\ re_match true (prog quoted) (clean_text label) = Some [g0; g1]
            /\ strip g1 = []
            /\ parse_title label = (strip g0, []))
  /\ (clean_text label = [] -> parse_title label = ([], []))
  /\ (Forall (fun q => re_match true (prog q) (clean_text label) = None)
             patterns ->
      parse_title label = ([], clean_text label)).
Proof.
  pose proof (clean_text_trimmed label) as Ht.
  destruct patterns_split as (quoted & Hq & Hsplit).
  assert (Hempty : clean_text label = [] -> parse_title label = ([], [])).
  { intros H. unfold parse_title. rewrite H. apply parse_loop_nil. }
  split; [|split; [exact Hempty|]].
  - split.
    + intros Htitle.
      destruct (clean_text label) as [|c cleaned] eqn:Hc; [now left|].
      right. rewrite <- Hc in *.
      destruct (parse_loop_two_sides (take 4 patterns) [quoted]
                  (clean_text label) Ht (fun _ H => H)) as [[_ H]|Hnone].
      { exfalso. apply H. unfold parse_title in Htitle.
        now rewrite Hsplit in Htitle. }
      assert (Hpt : parse_title label
                    = parse_loop [quoted] (clean_text label)).
      { unfold parse_title. rewrite Hsplit at 1.
        apply (parse_loop_skip _ _ _ Hnone). }
      rewrite Hpt in Htitle. rewrite Hpt.
      destruct (re_match true (prog quoted) (clean_text label)) as [l|] eqn:Hm.
      * destruct (quoted_match quoted _ _ Hq Hm) as (j & b & e & _ & ->).
        rewrite (parse_loop_hit _ _ _ _ _ Hm) in *.
        replace (contains (py "by") (source quoted)) with false in *
          by (injection Hq as <-; reflexivity).
        cbn [snd] in Htitle.
        exists quoted, (take j (clean_text label)),
               (slice b e (clean_text label)).
        rewrite Htitle. repeat split; auto.
      * exfalso. cbn [parse_loop] in Htitle. rewrite Hm in Htitle.
        cbn [snd] in Htitle. congruence.
    + intros [H|(quoted' & g0 & g1 & _ & _ & _ & _ & H)].
      * now rewrite (Hempty H).
      * now rewrite H.
  - intros Hnone. unfold parse_title.
    rewrite <- (app_nil_r patterns) at 1.
    now rewrite (parse_loop_skip _ _ _ Hnone).
Qed.

Lemma title_nonempty_for_cleaned_label_witness :
  clean_text (py "Bohemian Rhapsody (Remastered)") <> []
  /\ parse_title (py "Bohemian Rhapsody (Remastered)")
     = ([], clean_text (py "Bohemian Rhapsody (Remastered)"))
  /\ snd (parse_title (py "Bohemian Rhapsody (Remastered)")) <> [].
Proof.
  assert (Hne : clean_text (py "Bohemian Rhapsody (Remastered)") <> [])
    by (vm_compute; discriminate).
  split; [exact Hne|].
  assert (Hp : parse_title (py "Bohemian Rhapsody (Remastered)")
               = ([], clean_text (py "Bohemian Rhapsody (Remastered)"))).
  { apply (proj2 (proj2 (title_nonempty_for_cleaned_label
                           (py "Bohemian Rhapsody (Remastered)")))).
    repeat constructor; vm_compute; reflexivity. }
  split; [exact Hp|]. rewrite Hp. exact Hne.
Defined.

(** ** Runs on the examples of the specification *)

Example parse_ed_sheeran :
  parse_title (py "Ed Sheeran - Shape of You [Official Video]")
  = (py "Ed Sheeran", py "Shape of You").
Proof. vm_compute. reflexivity. Qed.

Example parse_by :
  parse_title (py "Imagine by John Lennon") = (py "John Lennon", py "Imagine").
Proof. vm_compute. reflexivity. Qed.

Example parse_empty : parse_title [] = ([], []).
Proof. vm_compute. reflexivity. Qed.

Example parse_featuring :
  parse_title (py "Calvin Harris  :  This Is What You Came For FT. Rihanna")
  = (py "Calvin Harris", py "This Is What You Came For").
Proof. vm_compute. reflexivity. Qed.

Example clean_adele_vevo :
  _clean_channel_name (py "Adele VEVO") = py "Adele"
  /\ _clean_channel_name (py "Adele") = py "Adele"
  /\ _clean_channel_name [] = [].
Proof. vm_compute. repeat split; reflexivity. Qed.

Example extract_id :
  extract_playlist_id sample_url = Some (py "PL_x1-a")
  /\ extract_playlist_id (py "https://www.youtube.com/watch?v=abc") = None.
Proof. vm_compute. split; reflexivity. Qed.

Example format_examples :
  format_2f 0.125 = py "0.12" /\ format_2f 0.375 = py "0.38"
  /\ format_2f 0.49999 = py "0.50" /\ format_2f 1 = py "1.00".
Proof. vm_compute. repeat split; reflexivity. Qed.

Example hey_jude_accepted :
  let world :=
    sample_world [mkVideo (py "The Beatles - Hey Jude") []]
                 (Returned (Some hey_jude)) in
  let '(songs, stats, log) :=
    migrate_playlist world sample_url (py "mine") true [] in
  map found songs = [true]
  /\ map match_confidence songs = [1%float]
  /\ successful_tracks songs = [t_uri hey_jude]
  /\ stats = mkStats 1 1 0 0
  /\ last log = Some (AddTracks (py "playlist1") [t_uri hey_jude]).
Proof. vm_compute. repeat split; reflexivity. Qed.

(** * Further properties *)

(** ** The confidence as a number *)

Section Confidence.

Lemma scores_In (z : Z) : (0 <= z <= 100)%Z -> In z scores.
Proof.
  intros Hz. unfold scores. apply in_map_iff. exists (Z.to_nat z).
  split; [lia|]. apply in_seq. lia.
Qed.

Lemma all_scores_spec (P : Z -> Z -> bool) :
  all_scores P = true ->
  forall t a, (0 <= t <= 100)%Z -> (0 <= a <= 100)%Z -> P t a = true.
Proof.
  unfold all_scores. intros H t a Ht Ha.
  rewrite forallb_forall in H. specialize (H t (scores_In t Ht)).
  rewrite forallb_forall in H. exact (H a (scores_In a Ha)).
Qed.

Lemma ascending_nth (l : list float) :
  ascending l = true ->
  forall i j d, i <= j < length l ->
  (nth i l d <=? nth j l d)%float = true.
Proof.
  induction l as [|x l IH]; intros H i j d Hij; [cbn in Hij; lia|].
  cbn [ascending] in H. apply andb_true_iff in H. destruct H as [Hx Hl].
  destruct i as [|i].
  - rewrite forallb_forall in Hx. apply Hx. apply nth_In. lia.
  - destruct j as [|j]; [lia|]. cbn [nth]. apply IH; [exact Hl|].
    cbn in Hij. lia.
Qed.

Lemma ascending_scores (f : Z -> float) :
  ascending (map f scores) = true ->
  forall x y, (0 <= x <= y)%Z -> (y <= 100)%Z -> (f x <=? f y)%float = true.
Proof.
  intros H x y Hx Hy.
  assert (Hn : forall z, (0 <= z <= 100)%Z ->
                 nth (Z.to_nat z) (map f scores) (f 0%Z) = f z).
  { intros z Hz. unfold scores.
    change (f 0%Z) with (f (Z.of_nat 0)). rewrite !map_nth.
    rewrite seq_nth by lia. f_equal. lia. }
  rewrite <- (Hn x), <- (Hn y) by lia.
  apply ascending_nth; [exact H|].
  unfold scores. rewrite !length_map, length_seq. lia.
Qed.

Variable W : World.
Implicit Types original_artist original_title spotify_artist spotify_title
  : pystr.

Lemma confidence_weighted original_artist original_title
    spotify_artist spotify_title :
  original_artist <> [] -> original_title <> [] ->
  calculate_match_confidence W original_artist original_title
                             spotify_artist spotify_title
  = weighted (title_score_of W original_title spotify_title)
             (artist_score_of W original_artist spotify_artist).
Proof.
  intros Ha Ht. unfold calculate_match_confidence.
  destruct original_artist; [contradiction|].
  destruct original_title; [contradiction|]. reflexivity.
Qed.

(** X1.  With scores between 0 and 100, the confidence computed in binary64
    lies between 0.0 and 1.0. *)
Theorem confidence_in_unit_interval original_artist original_title
    spotify_artist spotify_title :
  (0 <= artist_score_of W original_artist spotify_artist <= 100)%Z ->
  (0 <= title_score_of W original_title spotify_title <= 100)%Z ->
  let c := calculate_match_confidence W original_artist original_title
                                      spotify_artist spotify_title in
  (0 <=? c)%float = true /\ (c <=? 1)%float = true.
Proof.
  intros Ha Ht.
  assert (Hall : all_scores (fun t a => (0 <=? weighted t a)%float
                                        && (weighted t a <=? 1)%float) = true)
    by (vm_compute; reflexivity).
  cbn zeta. unfold calculate_match_confidence.
  destruct original_artist as [|x oa]; [split; vm_compute; reflexivity|].
  destruct original_title as [|y ot]; [split; vm_compute; reflexivity|].
  cbn [truthy negb orb].
  apply andb_true_iff. exact (all_scores_spec _ Hall _ _ Ht Ha).
Qed.

(** X2.  With scores between 0 and 100, a match is accepted at the default
    threshold exactly when both original fields are non-empty and
    [7 * title + 3 * artist >= 500], except for the four score pairs
    (53, 43), (56, 36), (68, 8) and (71, 1): their weighted average is 0.5
    in exact arithmetic, the binary64 computation gives less, and they are
    rejected. *)
Theorem acceptance_in_integers original_artist original_title
    spotify_artist spotify_title :
  (0 <= artist_score_of W original_artist spotify_artist <= 100)%Z ->
  (0 <= title_score_of W original_title spotify_title <= 100)%Z ->
  is_good_match
    (calculate_match_confidence W original_artist original_title
                                spotify_artist spotify_title) None = true
  <-> original_artist <> [] /\ original_title <> []
      /\ (500 <= 7 * title_score_of W original_title spotify_title
                 + 3 * artist_score_of W original_artist spotify_artist)%Z
      /\ rounded_below_half (title_score_of W original_title spotify_title)
                            (artist_score_of W original_artist spotify_artist)
         = false.
Proof.
  intros Ha Ht.
  assert (Hall : all_scores (fun t a =>
            Bool.eqb (is_good_match (weighted t a) None)
                     ((500 <=? 7 * t + 3 * a)%Z
                      && negb (rounded_below_half t a))) = true)
    by (vm_compute; reflexivity).
  destruct original_artist as [|x oa].
  { split; [vm_compute; discriminate|]. now intros [H _]. }
  destruct original_title as [|y ot].
  { split; [vm_compute; discriminate|]. now intros (_ & H & _). }
  rewrite confidence_weighted by discriminate.
  pose proof (all_scores_spec _ Hall _ _ Ht Ha) as H.
  apply eqb_prop in H. rewrite H, andb_true_iff, negb_true_iff, Z.leb_le.
  intuition discriminate.
Qed.

(** X3.  With scores between 0 and 100, a higher title score never lowers
    the confidence while the artist score stays the same, and a higher
    artist score never lowers it while the title score stays the same
    (rounding included). *)
Theorem confidence_monotone original_artist original_title
    spotify_artist spotify_title spotify_artist' spotify_title' :
  original_artist <> [] -> original_title <> [] ->
  (0 <= artist_score_of W original_artist spotify_artist
     <= artist_score_of W original_artist spotify_artist')%Z ->
  (artist_score_of W original_artist spotify_artist' <= 100)%Z ->
  (0 <= title_score_of W original_title spotify_title
     <= title_score_of W original_title spotify_title')%Z ->
  (title_score_of W original_title spotify_title' <= 100)%Z ->
  (calculate_match_confidence W original_artist original_title
                              spotify_artist spotify_title
   <=? calculate_match_confidence W original_artist original_title
                                  spotify_artist spotify_title')%float = true
  /\ (calculate_match_confidence W original_artist original_title
                                 spotify_artist spotify_title
      <=? calculate_match_confidence W original_artist original_title
                                     spotify_artist' spotify_title)%float
     = true.
Proof.
  intros Hoa Hot Ha Ha' Ht Ht'.
  assert (Hall : forallb (fun o =>
            ascending (map (fun x => weighted x o) scores)
            && ascending (map (fun x => weighted o x) scores)) scores = true)
    by (vm_compute; reflexivity).
  rewrite forallb_forall in Hall.
  rewrite !confidence_weighted by assumption. split.
  - assert (Hin : In (artist_score_of W original_artist spotify_artist) scores)
      by (apply scores_In; lia).
    destruct (proj1 (andb_true_iff _ _) (Hall _ Hin)) as [H _].
    exact (ascending_scores _ H _ _ Ht Ht').
  - assert (Hin : In (title_score_of W original_title spotify_title) scores)
      by (apply scores_In; lia).
    destruct (proj1 (andb_true_iff _ _) (Hall _ Hin)) as [_ H].
    exact (ascending_scores _ H _ _ Ha Ha').
Qed.

End Confidence.

Lemma confidence_in_unit_interval_witness :
  let c := calculate_match_confidence beatles_world (py "Adele") (py "Hello")
                                      (py "XYZ") (py "Hello") in
  (0 <=? c)%float = true /\ (c <=? 1)%float = true.
Proof.
  apply (confidence_in_unit_interval beatles_world (py "Adele") (py "Hello")
           (py "XYZ") (py "Hello")); vm_compute; split; discriminate.
Defined.

Lemma acceptance_in_integers_witness :
  is_good_match
    (calculate_match_confidence beatles_world (py "Adele") (py "Hello")
                                (py "XYZ") (py "Hello")) None = true.
Proof.
  apply (acceptance_in_integers beatles_world (py "Adele") (py "Hello")
           (py "XYZ") (py "Hello")).
  - vm_compute; split; discriminate.
  - vm_compute; split; discriminate.
  - split; [discriminate|]. split; [discriminate|].
    split; [apply Z.leb_le|]; vm_compute; reflexivity.
Defined.

Lemma confidence_monotone_witness :
  (calculate_match_confidence beatles_world (py "Adele") (py "Hello")
                              (py "XYZ") (py "QQQ")
   <=? calculate_match_confidence beatles_world (py "Adele") (py "Hello")
                                  (py "XYZ") (py "Hello"))%float = true.
Proof.
  assert (Hle : forall x y : Z, (x <=? y)%Z = true -> (x <= y)%Z)
    by (intros x y; apply Z.leb_le).
  apply (confidence_monotone beatles_world (py "Adele") (py "Hello")
           (py "XYZ") (py "QQQ") (py "Adele") (py "Hello")).
  - discriminate.
  - discriminate.
  - split; apply Hle; vm_compute; reflexivity.
  - apply Hle; vm_compute; reflexivity.
  - split; apply Hle; vm_compute; reflexivity.
  - apply Hle; vm_compute; reflexivity.
Defined.

(** ** More on cleaning channel names *)

Lemma trimmed_nil : trimmed [].
Proof.
  split; intros c y H; [discriminate|].
  now apply app_cons_not_nil in H.
Qed.

(** X4.  The cleaned channel name has no white space at either end and is a
    part of the channel name: the cleaner only removes characters, at the
    ends. *)
Theorem clean_channel_is_trimmed_part (channel : pystr) :
  trimmed (_clean_channel_name channel)
  /\ (exists a b, channel = a ++ _clean_channel_name channel ++ b)
  /\ length (_clean_channel_name channel) <= length channel.
Proof.
  assert (Hpart : exists a b, channel = a ++ _clean_channel_name channel ++ b).
  { unfold _clean_channel_name. destruct channel as [|c channel].
    - exists [], []. reflexivity.
    - cbn [truthy negb].
      destruct (remove_suffixes_prefix suffixes_to_remove (c :: channel))
        as [k Hk].
      destruct (strip_infix (fold_left remove_suffix suffixes_to_remove
                               (c :: channel))) as (a & b & Hab).
      exists a, (b ++ k). rewrite Hk at 1. rewrite Hab at 1.
      now rewrite <- !app_assoc. }
  split; [|split; [exact Hpart|]].
  - unfold _clean_channel_name.
    destruct (negb (truthy channel)); [apply trimmed_nil|apply strip_trimmed].
  - destruct Hpart as (a & b & H). rewrite H at 2. rewrite !length_app. lia.
Qed.

(** X5.  A channel name without white space at its ends that ends with none
    of the suffixes of the list is returned as it is. *)
Theorem clean_channel_keeps_plain_name (channel : pystr) :
  trimmed channel ->
  existsb (endswith channel) suffixes_to_remove = false ->
  _clean_channel_name channel = channel.
Proof.
  intros Ht Hs. unfold _clean_channel_name.
  destruct channel as [|c channel]; [reflexivity|]. cbn [truthy negb].
  rewrite (remove_suffixes_miss _ _ Hs). now apply trimmed_strip.
Qed.

Lemma clean_channel_keeps_plain_name_witness :
  _clean_channel_name (py "Ed Sheeran") = py "Ed Sheeran".
Proof.
  apply (clean_channel_keeps_plain_name (py "Ed Sheeran")).
  - split; intros c y H.
    + now injection H as <- _.
    + change (py "Ed Sheeran") with (py "Ed Sheera" ++ [110%N]) in H.
      apply app_inj_tail in H. now destruct H as [_ <-].
  - vm_compute. reflexivity.
Defined.

(** ** More on [parse_title] *)

Lemma parse_loop_trimmed (pats : list pattern) (text : pystr) :
  trimmed text ->
  trimmed (fst (parse_loop pats text)) /\ trimmed (snd (parse_loop pats text)).
Proof.
  intros Ht. induction pats as [|p pats IH]; cbn [parse_loop].
  - split; [apply trimmed_nil|exact Ht].
  - destruct (re_match true (prog p) text) as [[|g0 [|g1 [|g2 l]]]|];
      try exact IH.
    destruct (contains (py "by") (source p)); split; apply strip_trimmed.
Qed.

(** X6.  [parse_title] returns an empty artist exactly when no pattern
    matches the cleaned label, and then the title is the whole cleaned
    label; neither part of the result has white space at its ends. *)
Theorem parse_title_artist_empty (label : pystr) :
  (fst (parse_title label) = []
   <-> Forall (no_match (clean_text label)) patterns)
  /\ (fst (parse_title label) = [] ->
      snd (parse_title label) = clean_text label)
  /\ trimmed (fst (parse_title label))
  /\ trimmed (snd (parse_title label)).
Proof.
  pose proof (clean_text_trimmed label) as Ht.
  destruct patterns_split as (quoted & Hq & Hsplit).
  assert (Hback : Forall (no_match (clean_text label)) patterns ->
                  parse_title label = ([], clean_text label)).
  { intros Hnone. unfold parse_title.
    rewrite <- (app_nil_r patterns) at 1.
    now rewrite (parse_loop_skip _ _ _ Hnone). }
  assert (Hforth : fst (parse_title label) = [] ->
                   Forall (no_match (clean_text label)) patterns).
  { intros He.
    destruct (parse_loop_two_sides (take 4 patterns) [quoted]
                (clean_text label) Ht (fun _ H => H)) as [[H _]|Hnone].
    { exfalso. apply H. rewrite <- Hsplit. exact He. }
    unfold parse_title in He. rewrite Hsplit in He at 1.
    rewrite (parse_loop_skip _ _ _ Hnone) in He.
    rewrite Hsplit. apply Forall_app. split; [exact Hnone|].
    constructor; [|constructor]. unfold no_match.
    destruct (re_match true (prog quoted) (clean_text label)) as [l|] eqn:Hm;
      [|reflexivity].
    exfalso.
    destruct (quoted_match quoted _ _ Hq Hm) as (j & b & e & Hj & ->).
    rewrite (parse_loop_hit _ _ _ _ _ Hm) in He.
    replace (contains (py "by") (source quoted)) with false in He
      by (injection Hq as <-; reflexivity).
    cbn [fst] in He. revert He. now apply strip_take_nonempty. }
  split; [split; [exact Hforth|]|split].
  - intros H. now rewrite (Hback H).
  - intros He. now rewrite (Hback (Hforth He)).
  - apply parse_loop_trimmed, Ht.
Qed.

(** ** The searches of an item *)

Section Searches.
Variable W : World.
Implicit Types (log : list request) (queries : list pystr).

Lemma try_queries_app queries1 queries2 log :
  try_queries W (queries1 ++ queries2) log
  = (let* result := try_queries W queries1 in
     match result with
     | Some track => ret (Some track)
     | None => try_queries W queries2
     end) log.
Proof.
  revert log. induction queries1 as [|q queries1 IH]; intros log;
    [reflexivity|].
  cbn [app try_queries]. unfold bind, _search_with_query.
  destruct (search_reply W log q) as [[track|]|msg]; try reflexivity.
  rewrite IH. reflexivity.
Qed.

Lemma strategy_try (cond : bool) queries (otherwise : M (option Track)) log :
  strategy cond (try_queries W queries) otherwise log
  = (let* result := try_queries W (if cond then queries else []) in
     match result with
     | Some track => ret (Some track)
     | None => otherwise
     end) log.
Proof. destruct cond; reflexivity. Qed.

Lemma search_track_try artist title log :
  search_track W artist title log
  = try_queries W (search_queries artist title) log.
Proof.
  unfold search_track, search_queries, strategy, exact_query, general_query,
    title_query.
  destruct (truthy artist && truthy title), (truthy title);
    cbn [app try_queries]; unfold bind, ret, _search_with_query;
    repeat match goal with
    | |- context [search_reply W ?l ?q] =>
        destruct (search_reply W l q) as [[?|]|?]
    end; reflexivity.
Qed.

Lemma bind_ext {A B} (c : M A) (k1 k2 : A -> M B) log :
  (forall a log', k1 a log' = k2 a log') -> bind c k1 log = bind c k2 log.
Proof.
  intros H. unfold bind. destruct (c log) as [[a|msg] log']; [apply H|].
  reflexivity.
Qed.

Lemma enhanced_search_try artist title channel log :
  _enhanced_spotify_search W artist title channel log
  = try_queries W (enhanced_queries artist title channel) log.
Proof.
  unfold _enhanced_spotify_search, enhanced_queries.
  set (c1 := truthy artist && truthy title).
  set (c2 := truthy channel && negb (str_eqb channel artist) && truthy title
             && truthy (_clean_channel_name channel)).
  set (c3 := truthy title).
  assert (Hs : forall cond a t otherwise l,
            strategy cond (search_track W a t) otherwise l
            = strategy cond (try_queries W (search_queries a t)) otherwise l).
  { intros cond a t otherwise l. destruct cond; [|reflexivity].
    unfold strategy, bind. now rewrite search_track_try. }
  rewrite Hs, strategy_try, try_queries_app.
  apply bind_ext. intros [track|] log1; [reflexivity|].
  rewrite Hs, strategy_try, try_queries_app.
  apply bind_ext. intros [track|] log2; [reflexivity|].
  rewrite Hs, strategy_try.
  rewrite <- (app_nil_r (if c3 then _ else _)) at 2.
  now rewrite try_queries_app.
Qed.

Lemma all_none_app log queries1 queries2 :
  all_none W log (queries1 ++ queries2)
  <-> all_none W log queries1
      /\ all_none W (log ++ map Search queries1) queries2.
Proof.
  revert log. induction queries1 as [|q queries1 IH]; intros log;
    cbn [app all_none map].
  - rewrite app_nil_r. tauto.
  - rewrite IH, <- app_assoc. cbn [app]. tauto.
Qed.

(** What a run of searches sends and returns. *)
Lemma try_queries_spec queries :
  forall log, exists sent,
    sent `prefix_of` queries
    /\ snd (try_queries W queries log) = log ++ map Search sent
    /\ search_outcome W queries log (fst (try_queries W queries log)) sent.
Proof.
  induction queries as [|q queries IH]; intros log.
  - exists []. cbn. rewrite app_nil_r. repeat split; reflexivity.
  - cbn [try_queries]. unfold bind, _search_with_query.
    destruct (search_reply W log q) as [[track|]|msg] eqn:Hq.
    + exists [q]. cbn [fst snd ret map].
      split; [exists queries; reflexivity|]. split; [reflexivity|].
      exists [], q. cbn. now rewrite app_nil_r.
    + destruct (IH (log ++ [Search q])) as (sent & Hp & Hl & Ho).
      exists (q :: sent). split; [now apply prefix_cons|].
      split; [rewrite Hl, <- app_assoc; reflexivity|].
      revert Ho. unfold search_outcome.
      destruct (fst (try_queries W queries (log ++ [Search q])))
        as [[track|]|msg].
      * intros (earlier & q' & -> & Hn & Hr). exists (q :: earlier), q'.
        cbn [app map all_none]. rewrite <- app_assoc in Hr. auto.
      * intros [-> Hn]. cbn [all_none]. auto.
      * intros (earlier & q' & -> & Hn & Hr). exists (q :: earlier), q'.
        cbn [app map all_none]. rewrite <- app_assoc in Hr. auto.
    + exists [q]. cbn [fst snd map].
      split; [exists queries; reflexivity|]. split; [reflexivity|].
      exists [], q. cbn. now rewrite app_nil_r.
Qed.

Lemma search_queries_length artist title :
  length (search_queries artist title) <= 3
  /\ (title = [] -> search_queries artist title = [])
  /\ (artist = [] -> length (search_queries artist title) <= 1).
Proof.
  unfold search_queries. split; [|split].
  - destruct (truthy artist && truthy title), (truthy title); cbn; lia.
  - intros ->. now rewrite andb_false_r.
  - intros ->. destruct (truthy title); cbn; lia.
Qed.

(** X7.  [search_track] sends at most three searches, a prefix of the exact,
    the general and the title-only query in this order (only the title-only
    one when the artist is empty, none when the title is empty), and nothing
    else.  It returns no track when all of them were sent and returned none;
    otherwise it stops at the first query that returns a track or raises,
    and returns that track or raises that exception. *)
Theorem search_track_protocol (artist title : pystr) log :
  exists sent,
    sent `prefix_of` search_queries artist title
    /\ snd (search_track W artist title log) = log ++ map Search sent
    /\ search_outcome W (search_queries artist title) log
         (fst (search_track W artist title log)) sent
    /\ length sent <= 3
    /\ (title = [] -> sent = [])
    /\ (artist = [] -> length sent <= 1).
Proof.
  rewrite search_track_try.
  destruct (try_queries_spec (search_queries artist title) log)
    as (sent & Hp & Hl & Ho).
  destruct (search_queries_length artist title) as (H3 & H0 & H1).
  pose proof (prefix_length _ _ Hp) as Hlen.
  exists sent. repeat split; try assumption; try lia.
  - intros Ht. rewrite (H0 Ht) in Hp. now apply prefix_nil_inv in Hp.
  - intros Ha. specialize (H1 Ha). lia.
Qed.

Lemma enhanced_queries_length (artist title channel : pystr) :
  length (enhanced_queries artist title channel) <= 7.
Proof.
  unfold enhanced_queries. rewrite !length_app.
  pose proof (search_queries_length artist title) as (Ha & _ & _).
  pose proof (search_queries_length (_clean_channel_name channel) title)
    as (Hc & _ & _).
  pose proof (search_queries_length [] title) as (_ & _ & Ht).
  specialize (Ht eq_refl).
  repeat match goal with |- context [if ?b then _ else _] => destruct b end;
    cbn [length]; lia.
Qed.

Lemma enhanced_search_sends (artist title channel : pystr) log :
  exists sent,
    sent `prefix_of` enhanced_queries artist title channel
    /\ snd (_enhanced_spotify_search W artist title channel log)
       = log ++ map Search sent
    /\ search_outcome W (enhanced_queries artist title channel) log
         (fst (_enhanced_spotify_search W artist title channel log)) sent
    /\ length sent <= 7.
Proof.
  rewrite enhanced_search_try.
  destruct (try_queries_spec (enhanced_queries artist title channel) log)
    as (sent & Hp & Hl & Ho).
  pose proof (prefix_length _ _ Hp) as Hlen.
  pose proof (enhanced_queries_length artist title channel).
  exists sent. repeat split; try assumption. lia.
Qed.

(** X8.  [_enhanced_spotify_search] sends at most seven searches and nothing
    else: a prefix of the queries of [search_track] for the artist, then for
    the cleaned channel name (when the channel is not the artist and cleans
    to a non-empty name), then for the title alone.  It sends nothing when
    the title is empty.  It returns no track when all of them were sent and
    returned none; otherwise it stops at the first query that returns a
    track or raises. *)
Theorem enhanced_search_protocol (artist title channel : pystr) log :
  exists sent,
    sent `prefix_of` enhanced_queries artist title channel
    /\ snd (_enhanced_spotify_search W artist title channel log)
       = log ++ map Search sent
    /\ search_outcome W (enhanced_queries artist title channel) log
         (fst (_enhanced_spotify_search W artist title channel log)) sent
    /\ length sent <= 7
    /\ (title = [] -> sent = []).
Proof.
  destruct (enhanced_search_sends artist title channel log)
    as (sent & Hp & Hl & Ho & H7).
  exists sent. repeat split; try assumption.
  intros ->. unfold enhanced_queries in Hp.
  rewrite !andb_false_r in Hp. cbn in Hp. now apply prefix_nil_inv in Hp.
Qed.

End Searches.

(** ** More on the per-song pipeline *)

Section ProcessSongMore.
Variable W : World.
Implicit Types (video : Video) (log : list request).

Lemma record_match_invariants (song : Song) (artist song_title : pystr)
    (track : Track) :
  found song = false -> error song = [] ->
  match_confidence song = 0%float ->
  let song' := record_match W song artist song_title track in
  original_title song' = original_title song
  /\ channel_name song' = channel_name song
  /\ Data.artist song' = Data.artist song
  /\ title song' = title song
  /\ found song' = is_good_match (match_confidence song') None
  /\ (found song' = true ->
      error song' = [] /\ spotify_uri song' = t_uri track
      /\ t_artists track <> []).
Proof.
  intros Hf He Hc. unfold record_match.
  destruct (t_artists track) as [|a others].
  - cbn. rewrite Hc, Hf. repeat split; try reflexivity; discriminate.
  - cbn zeta.
    destruct (is_good_match (calculate_match_confidence W _ _ _ _) None)
      eqn:E;
      cbn [negb found set_found set_error set_spotify_uri set_match_confidence
           match_confidence error original_title channel_name title
           Data.artist];
      rewrite ?E; repeat split; auto; discriminate.
Qed.

(** X9.  The song [_process_song] returns carries the video's title and
    channel and the artist and title that were searched.  It is marked found
    exactly when its recorded confidence passes the default threshold, and a
    found song has an empty error and the URI of the track the search
    returned.  Processing one song sends at most seven requests, all of them
    searches. *)
Theorem process_song_invariants video log :
  let song := fst (_process_song W video log) in
  original_title song = v_title video
  /\ channel_name song = v_channel video
  /\ Data.artist song = searched_artist video
  /\ title song = searched_title video
  /\ found song = is_good_match (match_confidence song) None
  /\ (found song = true ->
      error song = []
      /\ exists track log',
           search_of W video log = (Returned (Some track), log')
           /\ t_artists track <> []
           /\ spotify_uri song = t_uri track)
  /\ exists sent,
       snd (_process_song W video log) = log ++ map Search sent
       /\ length sent <= 7.
Proof.
  cbn zeta. rewrite process_song_unfold. cbn zeta.
  destruct (enhanced_search_sends W (searched_artist video)
              (searched_title video) (v_channel video) log)
    as (sent & _ & Hl & _ & H7).
  fold (search_of W video log) in Hl.
  destruct (search_of W video log) as [[[track|]|msg] log'] eqn:Hs;
    cbn [fst snd] in *.
  - destruct (record_match_invariants
                (set_title (searched_title video)
                   (set_artist (searched_artist video)
                      (new_song (v_title video) (v_channel video))))
                (searched_artist video) (searched_title video) track
                eq_refl eq_refl eq_refl) as (H1 & H2 & H3 & H4 & H5 & H6).
    split; [exact H1|]. split; [exact H2|]. split; [exact H3|].
    split; [exact H4|]. split; [exact H5|]. split; [|eauto].
    intros Hf. destruct (H6 Hf) as (He & Hu & Ha). split; [exact He|eauto].
  - do 5 (split; [reflexivity|]). split; [discriminate|eauto].
  - do 5 (split; [reflexivity|]). split; [discriminate|eauto].
Qed.

(** X10.  A video whose title cleans to the empty string is not searched at
    all: no request is sent, whatever the channel, and the song is recorded
    as not found with the error "No matches found on Spotify". *)
Theorem empty_title_is_not_searched video log :
  clean_text (v_title video) = [] ->
  snd (_process_song W video log) = log
  /\ title (fst (_process_song W video log)) = []
  /\ found (fst (_process_song W video log)) = false
  /\ error (fst (_process_song W video log))
     = py "No matches found on Spotify".
Proof.
  intros Hc.
  assert (Ht : searched_title video = []).
  { unfold searched_title, parse_title. rewrite Hc. reflexivity. }
  assert (Hs : search_of W video log = (Returned None, log)).
  { unfold search_of. rewrite enhanced_search_try, Ht.
    unfold enhanced_queries, search_queries. cbn [truthy].
    rewrite !andb_false_r. reflexivity. }
  rewrite (process_song_none _ _ _ _ Hs). cbn [fst snd].
  repeat split; try reflexivity. exact Ht.
Qed.

End ProcessSongMore.

Lemma empty_title_is_not_searched_witness :
  snd (_process_song beatles_world
         (mkVideo (py "[Official Video] (HD)") (py "The Beatles")) []) = [].
Proof.
  apply (empty_title_is_not_searched beatles_world
           (mkVideo (py "[Official Video] (HD)") (py "The Beatles")) []).
  vm_compute. reflexivity.
Defined.

(** ** More on a run *)

Section RunMore.
Variable W : World.
Implicit Types (video : Video) (log : list request).

Lemma process_song_log video log :
  exists sent,
    snd (_process_song W video log) = log ++ map Search sent
    /\ length sent <= 7.
Proof.
  rewrite process_song_unfold. cbn zeta.
  destruct (enhanced_search_sends W (searched_artist video)
              (searched_title video) (v_channel video) log)
    as (sent & _ & Hl & _ & H7).
  fold (search_of W video log) in Hl.
  destruct (search_of W video log) as [[[track|]|msg] log']; eauto.
Qed.

Lemma process_song_labels video log :
  original_title (fst (_process_song W video log)) = v_title video
  /\ channel_name (fst (_process_song W video log)) = v_channel video.
Proof.
  rewrite process_song_unfold. cbn zeta.
  destruct (search_of W video log) as [[[track|]|msg] log'];
    try (split; reflexivity).
  cbn [fst]. unfold record_match.
  destruct (t_artists track); [split; reflexivity|]. cbn zeta.
  match goal with |- context [negb ?b] => destruct b end; split; reflexivity.
Qed.

Lemma process_videos_trace (videos : list Video) :
  forall (songs : list Song) (stats : MigrationStats) log,
  exists new sent,
    fst (fst (process_videos W videos songs stats log)) = songs ++ new
    /\ snd (process_videos W videos songs stats log) = log ++ map Search sent
    /\ map original_title new = map v_title videos
    /\ map channel_name new = map v_channel videos
    /\ length sent <= 7 * length videos.
Proof.
  induction videos as [|v videos IH]; intros songs stats log.
  - exists [], []. cbn. rewrite !app_nil_r. repeat split; lia.
  - cbn [process_videos].
    destruct (process_song_log v log) as (sent1 & Hl1 & H7).
    destruct (process_song_labels v log) as [Ht Hc].
    destruct (_process_song W v log) as [song log1]. cbn [fst snd] in *.
    destruct (IH (songs ++ [song]) (update_stats stats song) log1)
      as (new & sent & Hs & Hl & Hts & Hcs & Hn).
    exists (song :: new), (sent1 ++ sent).
    rewrite Hs, Hl, Hl1, <- !app_assoc, map_app, length_app.
    cbn [app map length]. rewrite Ht, Hc, Hts, Hcs.
    repeat split; lia.
Qed.

Lemma count_accepted (songs : list Song) :
  count_of Accepted songs = Z.of_nat (length (successful_tracks songs)).
Proof.
  unfold count_of, successful_tracks. rewrite length_map. do 2 f_equal.
  induction songs as [|s songs IH]; [reflexivity|]. cbn [List.filter].
  rewrite IH. unfold classify. destruct (found s); [reflexivity|].
  destruct (truthy (error s)); reflexivity.
Qed.

Lemma batches_of_nonempty (t : pystr) (tracks : list pystr) :
  batches_of (t :: tracks) <> [].
Proof.
  intros H. pose proof (concat_batches_of (t :: tracks)) as Hc.
  rewrite H in Hc. discriminate.
Qed.

(** What the last part of [migrate_playlist] sends. *)
Lemma commit_writes (playlist_name : pystr) (public : bool)
    (stats : MigrationStats) (tracks : list pystr) log :
  let create :=
    CreatePlaylist playlist_name (playlist_description stats) public in
  exists writes,
    snd (commit W playlist_name public stats tracks log) = log ++ writes
    /\ match tracks with
       | [] => writes = []
       | _ :: _ =>
           match created_id (post_reply W log create) with
           | None => writes = [create]
           | Some playlist_id =>
               exists batches,
                 writes = create :: map (AddTracks playlist_id) batches
                 /\ batches `prefix_of` batches_of tracks
                 /\ batches <> []
           end
       end.
Proof.
  cbn zeta. destruct tracks as [|t tracks].
  - exists []. cbn. rewrite app_nil_r. auto.
  - unfold commit, create_playlist, bind, _post, created_id.
    fold (playlist_description stats).
    set (create := CreatePlaylist playlist_name (playlist_description stats)
                                  public).
    destruct (post_reply W log create) as [[[|kv d]|]|msg];
      try (exists [create]; split; reflexivity).
    destruct (dict_get (py "id") (kv :: d)) as [[|c id]|];
      try (exists [create]; split; reflexivity).
    cbn [ret fst snd]. unfold add_tracks_to_playlist.
    fold (batches_of (t :: tracks)).
    destruct (add_batches_spec W (c :: id) (t :: tracks)
                (py_range 0 (length (t :: tracks)) batch_size)
                (log ++ [create]))
      as [[_ Hrun]|(earlier & b & later & Heq & _ & _ & Hrun)];
      fold (batches_of (t :: tracks)) in *; rewrite Hrun.
    + exists (create :: map (AddTracks (c :: id)) (batches_of (t :: tracks))).
      cbn [snd]. rewrite <- app_assoc. split; [reflexivity|].
      exists (batches_of (t :: tracks)).
      split; [reflexivity|]. split; [reflexivity|].
      apply batches_of_nonempty.
    + exists (create :: map (AddTracks (c :: id)) (earlier ++ [b])).
      split.
      { destruct (stopped _); cbn [snd]; now rewrite <- app_assoc. }
      exists (earlier ++ [b]). split; [reflexivity|].
      split; [exists later; rewrite Heq, <- app_assoc; reflexivity|].
      now destruct earlier.
Qed.

(** X11.  The songs of a run follow the videos of the playlist one to one
    and in order, with their titles and channels; [successful_matches] is
    the size of the commit set.  When the URL names no playlist or the
    playlist has no video, there is no song and no request is sent. *)
Theorem migrate_songs_follow_videos (youtube_url playlist_name : pystr)
    (public : bool) log :
  let '(songs, stats, log') :=
    migrate_playlist W youtube_url playlist_name public log in
  map original_title songs = map v_title (videos_of W youtube_url)
  /\ map channel_name songs = map v_channel (videos_of W youtube_url)
  /\ successful_matches stats = Z.of_nat (length (successful_tracks songs))
  /\ (videos_of W youtube_url = [] -> songs = [] /\ log' = log).
Proof.
  unfold migrate_playlist, videos_of.
  destruct (extract_playlist_id youtube_url) as [[|c id]|];
    try (cbn; repeat split; reflexivity).
  destruct (get_playlist_videos W (c :: id)) as [|v videos] eqn:Hv;
    [cbn; repeat split; reflexivity|].
  set (stats0 := mkStats _ _ _ _).
  destruct (process_videos_trace (v :: videos) [] stats0 log)
    as (new & sent & Hs & Hl & Ht & Hc & _).
  destruct (process_videos_counts W (v :: videos) [] stats0 log)
    as (new' & log1 & Hrun & _).
  rewrite Hrun in Hs. cbn [fst app] in Hs. subst new'. rewrite Hrun.
  destruct (commit _ _ _ _ _ _) as [? log2].
  cbn [app successful_matches stats0 new_stats].
  repeat split; try assumption.
  - rewrite count_accepted. lia.
  - discriminate.
  - discriminate.
Qed.

(** X12.  The requests of a run are searches, at most seven for each video,
    followed by what is written.  Nothing is written when no song was
    found.  Otherwise one playlist is created, with the name and the public
    flag given and a description that carries [successful_matches]; when
    the creation gives no usable id (it returned nothing, raised, or its
    body has no id or an empty one) nothing follows; when it gives an id,
    at least one and at most all of the batches of the commit set follow, in
    order, each added to the playlist of that very id. *)
Theorem migrate_requests (youtube_url playlist_name : pystr) (public : bool)
    log :
  let '(songs, stats, log') :=
    migrate_playlist W youtube_url playlist_name public log in
  let create :=
    CreatePlaylist playlist_name (playlist_description stats) public in
  exists sent,
    length sent <= 7 * length songs
    /\ match successful_tracks songs with
       | [] => log' = log ++ map Search sent
       | _ :: _ =>
           match created_id (post_reply W (log ++ map Search sent) create) with
           | None => log' = log ++ map Search sent ++ [create]
           | Some playlist_id =>
               exists batches,
                 log' = log ++ map Search sent
                        ++ create :: map (AddTracks playlist_id) batches
                 /\ batches `prefix_of` batches_of (successful_tracks songs)
                 /\ batches <> []
           end
       end.
Proof.
  unfold migrate_playlist.
  assert (Hnone : forall stats : MigrationStats,
            exists sent : list pystr,
              length sent <= 7 * length (@nil Song)
              /\ log = log ++ map Search sent).
  { intros stats. exists []. cbn. now rewrite app_nil_r. }
  destruct (extract_playlist_id youtube_url) as [[|c id]|];
    try (cbn zeta; apply (Hnone new_stats)).
  destruct (get_playlist_videos W (c :: id)) as [|v videos] eqn:Hv.
  { cbn zeta. cbn [successful_tracks List.filter map]. apply (Hnone new_stats). }
  set (stats0 := mkStats _ _ _ _).
  destruct (process_videos_trace (v :: videos) [] stats0 log)
    as (new & sent & Hs & Hl & Ht & _ & H7).
  destruct (process_videos W (v :: videos) [] stats0 log)
    as [[songs stats] log1]. cbn [fst snd app] in Hs, Hl. subst songs log1.
  pose proof (commit_writes playlist_name public stats (successful_tracks new)
                (log ++ map Search sent)) as Hw.
  cbn zeta in Hw. destruct Hw as (writes & Hw & Hshape).
  destruct (commit _ _ _ _ _ _) as [? log2]. cbn [snd] in Hw. subst log2.
  cbn zeta. exists sent.
  assert (Hlen : length new = length (v :: videos)).
  { rewrite <- (length_map original_title), Ht. apply length_map. }
  split; [lia|].
  destruct (successful_tracks new) as [|t tracks].
  - subst writes. now rewrite app_nil_r.
  - destruct (created_id _) as [playlist_id|].
    + destruct Hshape as (batches & -> & Hpre & Hne).
      exists batches. rewrite <- app_assoc. auto.
    + subst writes. now rewrite <- app_assoc.
Qed.

End RunMore.

(** ** The shape of the batches *)

(** X13.  A list of [n] URIs is cut into [ceil(n / 100)] batches; batch
    number [k] holds the URIs from index [100 * k] on, and every batch but
    the last holds exactly 100. *)
Theorem batches_shape (track_uris : list pystr) :
  length (batches_of track_uris) = (length track_uris + 99) / 100
  /\ forall k b,
       batches_of track_uris !! k = Some b ->
       b = take 100 (drop (100 * k) track_uris)
       /\ (S k < length (batches_of track_uris) -> length b = 100).
Proof.
  assert (Hlen : length (batches_of track_uris)
                 = (length track_uris + 99) / 100).
  { unfold batches_of. rewrite py_range_0, !length_map, length_seq.
    unfold batch_size. f_equal. lia. }
  split; [exact Hlen|]. intros k b Hb. rewrite Hlen.
  unfold batches_of in Hb. rewrite py_range_0 in Hb.
  rewrite !list_lookup_fmap in Hb.
  destruct (seq 0 ((length track_uris + batch_size - 1) / batch_size) !! k)
    as [k'|] eqn:Hk; [|discriminate].
  apply lookup_seq in Hk. destruct Hk as [-> Hk].
  change (Some (slice ((0 + k) * batch_size)
                      ((0 + k) * batch_size + batch_size) track_uris)
          = Some b) in Hb.
  injection Hb as <-. rewrite slice_batch. unfold batch_size in *.
  split; [f_equal; f_equal; lia|].
  intros Hlast. rewrite length_take, length_drop.
  destruct (batches_count_covers (length track_uris)) as [_ Hcov].
  unfold batch_size in Hcov.
  replace (length track_uris + 100 - 1) with (length track_uris + 99) in *
    by lia.
  specialize (Hcov (S k) Hlast). lia.
Qed.

(** ** The environment *)

Lemma snoc_not_nil {A} (l : list A) (x : A) : l ++ [x] <> [].
Proof. now destruct l. Qed.

Lemma check_required_spec (getenv : environ) (vars : list pystr) :
  forall missing_vars placeholder_vars,
  let '(m, p) := check_required getenv vars missing_vars placeholder_vars in
  (m = [] /\ p = [])
  <-> (missing_vars = [] /\ placeholder_vars = []
       /\ Forall (fun var => exists value,
                    getenv var = Some value /\ value <> []
                    /\ is_placeholder value = false) vars).
Proof.
  induction vars as [|var vars IH]; intros missing_vars placeholder_vars.
  - cbn. intuition constructor.
  - cbn [check_required].
    destruct (getenv var) as [[|c v]|] eqn:Hv.
    + specialize (IH (missing_vars ++ [var]) placeholder_vars).
      destruct (check_required _ _ _ _) as [m p]. rewrite IH.
      split.
      * intros (H & _). now apply snoc_not_nil in H.
      * intros (_ & _ & H). inversion H as [|? ? (value & Hg & Hn & _) _].
        congruence.
    + destruct (is_placeholder (c :: v)) eqn:Hp.
      * specialize (IH missing_vars (placeholder_vars ++ [var])).
        destruct (check_required _ _ _ _) as [m p]. rewrite IH.
        split.
        -- intros (_ & H & _). now apply snoc_not_nil in H.
        -- intros (_ & _ & H).
           inversion H as [|? ? (value & Hg & _ & Hnp) _]. congruence.
      * specialize (IH missing_vars placeholder_vars).
        destruct (check_required _ _ _ _) as [m p]. rewrite IH.
        split.
        -- intros (-> & -> & H). repeat split. constructor; [|exact H].
           exists (c :: v). split; [exact Hv|]. split; [discriminate|exact Hp].
        -- intros (-> & -> & H). inversion H. auto.
    + specialize (IH (missing_vars ++ [var]) placeholder_vars).
      destruct (check_required _ _ _ _) as [m p]. rewrite IH.
      split.
      * intros (H & _). now apply snoc_not_nil in H.
      * intros (_ & _ & H). inversion H as [|? ? (value & Hg & _) _].
        congruence.
Qed.

(** X14.  [validate_environment] returns [True] exactly when each of the
    three required variables is set to a non-empty value that is not one of
    the placeholders; [SPOTIFY_USER_ID] plays no part.  When it returns
    [True], the check of [PlaylistMigrator.__init__] passes too. *)
Theorem validate_environment_spec (getenv : environ) :
  (validate_environment getenv = true
   <-> Forall (fun var => exists value,
                 getenv var = Some value /\ value <> []
                 /\ is_placeholder value = false) required_vars)
  /\ (validate_environment getenv = true -> init_check getenv = true)
  /\ (forall getenv' : environ,
        (forall var, In var required_vars -> getenv' var = getenv var) ->
        validate_environment getenv' = validate_environment getenv).
Proof.
  assert (Hiff : forall g : environ,
            validate_environment g = true
            <-> Forall (fun var => exists value,
                          g var = Some value /\ value <> []
                          /\ is_placeholder value = false) required_vars).
  { intros g. unfold validate_environment.
    pose proof (check_required_spec g required_vars [] []) as H.
    destruct (check_required g required_vars [] []) as [m p].
    split.
    - intros Hv. apply H. destruct m, p; try discriminate. auto.
    - intros HF. destruct (proj2 H) as [-> ->]; auto. }
  split; [apply Hiff|]. split.
  - intros H. apply Hiff in H. unfold init_check.
    apply forallb_forall. intros v Hv. apply in_map_iff in Hv.
    destruct Hv as (var & <- & Hin). rewrite Forall_forall in H.
    destruct (H var (proj2 (list_elem_of_In _ _) Hin)) as (value & -> & Hn & _).
    now destruct value.
  - intros getenv' Hsame.
    apply eq_true_iff_eq. rewrite !Hiff. rewrite !Forall_forall.
    split; intros H var Hin; destruct (H var Hin) as (value & Hg & Hrest);
      exists value; (split; [|exact Hrest]).
    + rewrite <- Hsame; [exact Hg|now apply list_elem_of_In].
    + rewrite Hsame; [exact Hg|now apply list_elem_of_In].
Qed.

(** ** Requests with retries *)


(** ** Repetitions, forwards *)

Section RepForward.
Implicit Types (k : nat -> pystr -> option mstate) (p : N -> bool).

Lemma leading_le p (s : pystr) : leading p s <= length s.
Proof.
  induction s as [|c s IH]; cbn; [lia|]. destruct (p c); cbn; lia.
Qed.

Lemma leading_all p (s : pystr) : forallb p (take (leading p s) s) = true.
Proof.
  induction s as [|c s IH]; [reflexivity|]. cbn [leading].
  destruct (p c) eqn:Hc; [|reflexivity]. cbn. now rewrite Hc.
Qed.

Lemma leading_stop p (s : pystr) c s' :
  drop (leading p s) s = c :: s' -> p c = false.
Proof.
  induction s as [|d s IH]; [discriminate|]. cbn [leading].
  destruct (p d) eqn:Hd; [exact IH|]. now intros [= <- _].
Qed.

(** A greedy repetition takes the whole run when what follows accepts. *)
Lemma rep_greedy_max p k (r : mstate) (s : pystr) :
  forall min i,
  min <= leading p s ->
  k (i + leading p s) (drop (leading p s) s) = Some r ->
  rep p true k min i s = Some r.
Proof.
  induction s as [|c s IH]; intros min i Hmin Hk; cbn [leading] in *.
  - assert (min = 0) as -> by lia. cbn. now rewrite Nat.add_0_r in Hk.
  - cbn [rep]. destruct (p c) eqn:Hc.
    + rewrite <- Nat.add_succ_comm in Hk. cbn [drop] in Hk.
      destruct min as [|min]; cbn [Nat.eqb negb Nat.pred].
      * now rewrite (IH 0 (S i) ltac:(lia) Hk).
      * apply IH; [lia|exact Hk].
    + assert (min = 0) as -> by lia. cbn [Nat.eqb negb].
      now rewrite Nat.add_0_r in Hk.
Qed.

(** A repetition fails when what follows refuses every length it can
    take. *)
Lemma rep_none p (greedy : bool) k (s : pystr) :
  forall min i,
  (forall n, min <= n <= leading p s -> k (i + n) (drop n s) = None) ->
  rep p greedy k min i s = None.
Proof.
  induction s as [|c s IH]; intros min i Hk; cbn [leading] in *.
  - cbn. destruct min; [|reflexivity]. cbn.
    specialize (Hk 0 ltac:(lia)). now rewrite Nat.add_0_r in Hk.
  - cbn [rep]. destruct (p c) eqn:Hc.
    + assert (Hrec : rep p greedy k (Nat.pred min) (S i) s = None).
      { apply IH. intros n Hn. specialize (Hk (S n) ltac:(lia)).
        now rewrite <- Nat.add_succ_comm in Hk. }
      destruct min as [|min]; cbn [Nat.eqb negb Nat.pred] in *;
        [|exact Hrec].
      specialize (Hk 0 ltac:(lia)). rewrite Nat.add_0_r in Hk.
      cbn [drop] in Hk. destruct greedy; now rewrite Hrec, Hk.
    + destruct min as [|min]; cbn [Nat.eqb negb]; [|reflexivity].
      specialize (Hk 0 ltac:(lia)). rewrite Nat.add_0_r in Hk.
      cbn [drop] in Hk. destruct greedy; now rewrite Hk.
Qed.

(** A lazy repetition stops at the first length what follows accepts. *)
Lemma rep_lazy_first p k (r : mstate) (s : pystr) :
  forall n min i,
  min <= n <= leading p s ->
  (forall n', min <= n' < n -> k (i + n') (drop n' s) = None) ->
  k (i + n) (drop n s) = Some r ->
  rep p false k min i s = Some r.
Proof.
  induction s as [|c s IH]; intros n min i Hn Hnone Hk; cbn [leading] in *.
  - assert (n = 0) as -> by lia. assert (min = 0) as -> by lia.
    cbn. now rewrite Nat.add_0_r in Hk.
  - cbn [rep]. destruct n as [|n].
    + assert (min = 0) as -> by lia. cbn [Nat.eqb negb].
      rewrite Nat.add_0_r in Hk. cbn [drop] in Hk. now rewrite Hk.
    + destruct (p c) eqn:Hc; [|lia].
      rewrite <- Nat.add_succ_comm in Hk. cbn [drop] in Hk.
      assert (Hrec : rep p false k (Nat.pred min) (S i) s = Some r).
      { apply (IH n); [lia| |exact Hk]. intros n' Hn'.
        destruct (Nat.eq_dec min 0) as [->|Hz].
        - specialize (Hnone (S n') ltac:(lia)).
          now rewrite <- Nat.add_succ_comm in Hnone.
        - specialize (Hnone (S n') ltac:(lia)).
          now rewrite <- Nat.add_succ_comm in Hnone. }
      destruct min as [|min]; cbn [Nat.eqb negb Nat.pred] in *.
      * specialize (Hnone 0 ltac:(lia)). rewrite Nat.add_0_r in Hnone.
        cbn [drop] in Hnone. now rewrite Hnone.
      * exact Hrec.
Qed.

(** Literal characters, matched case-sensitively. *)
Lemma run_literals (l : pystr) (pat : list atom) :
  forall st,
  run false (map (fun c => Chr (CLit c)) l ++ pat) st
  = if startswith (rest st) l
    then run false pat (MState (pos st + length l) (drop (length l) (rest st))
                               (opened st) (spans st))
    else None.
Proof.
  induction l as [|x l IH]; intros st.
  - destruct st as [i [|c s] o sp]; cbn; now rewrite Nat.add_0_r.
  - cbn [map app run startswith length cset_mem lit_match].
    destruct (rest st) as [|c s'] eqn:Hr; [reflexivity|].
    change (startswith (c :: s') (x :: l))
      with ((x =? c)%N && startswith s' l).
    rewrite (N.eqb_sym x c). destruct (c =? x)%N; [|reflexivity].
    cbn [andb]. rewrite IH. cbn [rest pos opened spans drop].
    now rewrite Nat.add_succ_comm.
Qed.

End RepForward.

(** ** Playlist ids *)

Section PlaylistId.

Lemma startswith_app (s l : pystr) :
  startswith s l = true <-> exists s', s = l ++ s'.
Proof.
  revert s. induction l as [|x l IH]; intros s.
  - split; [cbn; eauto|intros _; now destruct s].
  - destruct s as [|c s]; [split; [discriminate|intros (? & [=])]|].
    change (startswith (c :: s) (x :: l))
      with ((x =? c)%N && startswith s l).
    rewrite andb_true_iff, N.eqb_eq, IH. split.
    + intros (-> & s' & ->). eauto.
    + intros (s' & [= -> ->]). eauto.
Qed.

(** A match of [list=([a-zA-Z0-9_-]+)] at position [i]. *)
Lemma match_at_list_id (i : nat) (s : pystr) :
  match_at false (lit "list=" ++ [Open 1; plus id_chars; Close 1]) i s
  = if startswith s (py "list=") && Nat.leb 1 (leading is_id (drop 5 s))
    then Some (MState (i + 5 + leading is_id (drop 5 s))
                      (drop (leading is_id (drop 5 s)) (drop 5 s))
                      [(1, i + 5)]
                      [(1, (i + 5, i + 5 + leading is_id (drop 5 s)))])
    else None.
Proof.
  unfold match_at, lit. rewrite run_literals. cbn [rest pos opened spans].
  destruct (startswith s (py "list=")); [|reflexivity]. cbn [andb].
  change (length (py "list=")) with 5.
  cbn [run plus pos rest opened spans].
  change (cset_mem false id_chars) with is_id.
  destruct (Nat.leb 1 (leading is_id (drop 5 s))) eqn:Hl.
  - apply Nat.leb_le in Hl. apply rep_greedy_max; [exact Hl|].
    cbn. rewrite ?Nat.eqb_refl. reflexivity.
  - apply Nat.leb_gt in Hl. apply rep_none. intros n Hn.
    lia.
Qed.

Lemma search_list_id (before s : pystr) :
  groups (lit "list=" ++ [Open 1; plus id_chars; Close 1]) (before ++ s)
    <$> search_go false (lit "list=" ++ [Open 1; plus id_chars; Close 1])
          (length before) s
  = (fun id => [id]) <$> first_id s.
Proof.
  revert before. induction s as [|c s IH]; intros before.
  - cbn [search_go first_id]. rewrite match_at_list_id. reflexivity.
  - cbn [search_go first_id]. rewrite match_at_list_id. unfold id_at.
    destruct (startswith (c :: s) (py "list=")
              && Nat.leb 1 (leading is_id (drop 5 (c :: s)))).
    + cbn [fmap option_fmap option_map]. unfold groups. cbn.
      unfold slice. do 2 f_equal.
      rewrite <- drop_drop, drop_app_length. f_equal. lia.
    + specialize (IH (before ++ [c])). rewrite <- app_assoc in IH.
      rewrite length_app, Nat.add_1_r in IH. exact IH.
Qed.

Lemma id_at_spec (s : pystr) :
  match id_at s with
  | Some id =>
      id <> [] /\ forallb is_id id = true
      /\ exists post, s = py "list=" ++ id ++ post
                      /\ forall c post', post = c :: post' -> is_id c = false
  | None => forall c post, s = py "list=" ++ c :: post -> is_id c = false
  end.
Proof.
  unfold id_at. destruct (startswith s (py "list=")) eqn:Hs; cbn [andb].
  - apply startswith_app in Hs. destruct Hs as (s' & ->).
    change (drop 5 (py "list=" ++ s')) with s'.
    destruct (Nat.leb 1 (leading is_id s')) eqn:Hl.
    + apply Nat.leb_le in Hl. split; [|split].
      * destruct s' as [|c s']; [cbn in Hl; lia|]. cbn [leading] in *.
        destruct (is_id c); [discriminate|lia].
      * apply leading_all.
      * exists (drop (leading is_id s') s'). rewrite take_drop.
        split; [reflexivity|]. intros c post'. apply leading_stop.
    + apply Nat.leb_gt in Hl. intros c post H.
      apply app_inv_head in H. subst s'. cbn [leading] in Hl.
      destruct (is_id c); [lia|reflexivity].
  - intros c post ->. discriminate.
Qed.

Lemma first_id_spec (s : pystr) :
  match first_id s with
  | Some id =>
      id <> [] /\ forallb is_id id = true
      /\ exists pre post,
           s = pre ++ py "list=" ++ id ++ post
           /\ (forall c post', post = c :: post' -> is_id c = false)
           /\ (forall pre' c rest,
                 s = pre' ++ py "list=" ++ c :: rest -> is_id c = true ->
                 length pre <= length pre')
  | None =>
      forall pre c post, s = pre ++ py "list=" ++ c :: post -> is_id c = false
  end.
Proof.
  induction s as [|d s IH]; cbn [first_id].
  - pose proof (id_at_spec []) as H. destruct (id_at []) as [id|].
    + destruct H as (_ & _ & post & H & _). discriminate.
    + intros [|? ?] c post; discriminate.
  - pose proof (id_at_spec (d :: s)) as H. destruct (id_at (d :: s)) as [id|].
    + destruct H as (Hn & Ha & post & Hs & Hstop).
      split; [exact Hn|]. split; [exact Ha|].
      exists [], post. repeat split; [exact Hs|exact Hstop|].
      intros; cbn; lia.
    + destruct (first_id s) as [id|].
      * destruct IH as (Hn & Ha & pre & post & Hs & Hstop & Hleft).
        split; [exact Hn|]. split; [exact Ha|].
        exists (d :: pre), post.
        split; [cbn [app]; f_equal; exact Hs|]. split; [exact Hstop|].
        intros [|d' pre'] c rest Heq Hc.
        -- specialize (H c rest Heq). congruence.
        -- injection Heq as <- Heq.
           specialize (Hleft pre' c rest Heq Hc). cbn. lia.
      * intros [|d' pre] c post Heq; [exact (H c post Heq)|].
        injection Heq as <- Heq. exact (IH pre c post Heq).
Qed.

(** The second pattern, [playlist\?list=...], finds nothing where the first
    found nothing. *)
Lemma search_playlist_list_none (s : pystr) :
  first_id s = None ->
  forall i,
  search_go false (lit "playlist?list=" ++ [Open 1; plus id_chars; Close 1])
            i s = None.
Proof.
  intros Hnone.
  pose proof (first_id_spec s) as Hspec. rewrite Hnone in Hspec. clear Hnone.
  assert (Hat : forall pre s' i, s = pre ++ s' ->
            match_at false
              (lit "playlist?list=" ++ [Open 1; plus id_chars; Close 1]) i s'
            = None).
  { intros pre s' i Hs. unfold match_at, lit. rewrite run_literals.
    cbn [rest pos opened spans].
    destruct (startswith s' (py "playlist?list=")) eqn:Hp; [|reflexivity].
    apply startswith_app in Hp. destruct Hp as (s'' & ->).
    change (length (py "playlist?list=")) with 14.
    change (drop 14 (py "playlist?list=" ++ s'')) with s''.
    cbn [run plus pos rest opened spans].
    change (cset_mem false id_chars) with is_id. apply rep_none.
    intros n Hn. exfalso.
    destruct s'' as [|c s'']; [cbn in Hn; lia|].
    specialize (Hspec (pre ++ py "playlist?") c s'').
    rewrite Hs, <- !app_assoc in Hspec. specialize (Hspec eq_refl).
    cbn [leading] in Hn. rewrite Hspec in Hn. lia. }
  assert (Hgo : forall s' pre i, s = pre ++ s' ->
            search_go false
              (lit "playlist?list=" ++ [Open 1; plus id_chars; Close 1]) i s'
            = None).
  { induction s' as [|c s' IH]; intros pre i Hs; cbn [search_go];
      rewrite (Hat pre _ i Hs); [reflexivity|].
    apply (IH (pre ++ [c])). now rewrite <- app_assoc. }
  intros i. exact (Hgo s [] i eq_refl).
Qed.

Lemma extract_first_id (url : pystr) :
  extract_playlist_id url = first_id url.
Proof.
  unfold extract_playlist_id, url_patterns, first_group, re_search.
  pose proof (search_list_id [] url) as H. cbn [app length] in H.
  rewrite H. destruct (first_id url) as [id|] eqn:Hid; [reflexivity|].
  cbn [fmap option_fmap option_map].
  now rewrite (search_playlist_list_none url Hid 0).
Qed.

(** X16.  When [extract_playlist_id] returns an id, the id is not empty, is
    made of letters, digits, [_] and [-] only, and stands in the URL right
    after the leftmost [list=] that is followed by such a character, up to
    the first character that is not one.  It returns [None] exactly when no
    [list=] of the URL is followed by such a character. *)
Theorem extract_playlist_id_spec (url : pystr) :
  match extract_playlist_id url with
  | Some id =>
      id <> [] /\ forallb is_id id = true
      /\ exists pre post,
           url = pre ++ py "list=" ++ id ++ post
           /\ (forall c post', post = c :: post' -> is_id c = false)
           /\ (forall pre' c rest,
                 url = pre' ++ py "list=" ++ c :: rest -> is_id c = true ->
                 length pre <= length pre')
  | None =>
      forall pre c post,
        url = pre ++ py "list=" ++ c :: post -> is_id c = false
  end.
Proof. rewrite extract_first_id. apply first_id_spec. Qed.

End PlaylistId.

(** ** White space after [clean_text] *)

Section Whitespace.
Implicit Types (s : pystr).

(** A match of [\s+] at position [i]: the whole run of white space. *)
Lemma match_at_spaces (i : nat) s :
  match_at false re_spaces i s
  = if Nat.leb 1 (leading isspace s)
    then Some (MState (i + leading isspace s) (drop (leading isspace s) s)
                      [] [])
    else None.
Proof.
  unfold match_at, re_spaces, plus. cbn [run pos rest opened spans].
  change (cset_mem false CSpace) with isspace.
  destruct (Nat.leb 1 (leading isspace s)) eqn:Hl.
  - apply Nat.leb_le in Hl. now apply rep_greedy_max.
  - apply Nat.leb_gt in Hl. apply rep_none. intros n Hn. lia.
Qed.

Lemma sub_go_skip (ignorecase : bool) (pat : list atom) (repl : pystr) s :
  forall k i,
  sub_go ignorecase pat repl k i s
  = sub_go ignorecase pat repl 0 (i + k) (drop k s).
Proof.
  induction s as [|c s IH]; intros k i.
  - now destruct k.
  - destruct k as [|k].
    + now rewrite Nat.add_0_r.
    + cbn [sub_go drop]. rewrite IH. f_equal. lia.
Qed.

Lemma collapse_spaces (n : nat) :
  forall s i, length s <= n ->
  single_spaced (sub_go false re_spaces (py " ") 0 i s) = true
  /\ (forall c s', s = c :: s' -> isspace c = false ->
      exists r, sub_go false re_spaces (py " ") 0 i s = c :: r).
Proof.
  induction n as [|n IH]; intros s i Hn.
  - destruct s; [|cbn in Hn; lia]. split; [reflexivity|discriminate].
  - destruct s as [|c s]; [split; [reflexivity|discriminate]|].
    cbn [sub_go]. rewrite match_at_spaces. cbn [leading].
    destruct (isspace c) eqn:Hc.
    + cbn [Nat.leb pos].
      replace (Nat.ltb i (i + S (leading isspace s))) with true
        by (symmetry; apply Nat.ltb_lt; lia).
      replace (i + S (leading isspace s) - i - 1) with (leading isspace s)
        by lia.
      rewrite sub_go_skip.
      set (s2 := drop (leading isspace s) s).
      assert (Hlen : length s2 <= n).
      { unfold s2. rewrite length_drop. cbn in Hn. lia. }
      destruct (IH s2 (S i + leading isspace s) Hlen) as [Hs Hh].
      split; [|intros ? ? [= <- <-]; congruence].
      change (py " " ++ ?r) with (32%N :: r). cbn [single_spaced].
      rewrite Hs, andb_true_r. apply orb_true_iff. right. cbn [N.eqb andb].
      destruct s2 as [|e s2'] eqn:Hs2; [reflexivity|].
      pose proof (leading_stop isspace s e s2' Hs2) as He.
      destruct (Hh e s2' eq_refl He) as (r & ->). now rewrite He.
    + cbn [Nat.leb]. cbn in Hn.
      destruct (IH s (S i) ltac:(lia)) as [Hs _].
      split; [|intros ? ? [= <- <-] _; eauto].
      cbn [single_spaced]. now rewrite Hc, Hs.
Qed.

Lemma single_spaced_suffix (a b : pystr) :
  single_spaced (a ++ b) = true -> single_spaced b = true.
Proof.
  induction a as [|c a IH]; [trivial|]. cbn [app single_spaced].
  intros H. apply andb_true_iff in H. apply IH, H.
Qed.

Lemma single_spaced_prefix (a b : pystr) :
  single_spaced (a ++ b) = true -> single_spaced a = true.
Proof.
  induction a as [|c a IH]; [trivial|]. cbn [app single_spaced].
  intros H. apply andb_true_iff in H. destruct H as [Hc Ha].
  rewrite (IH Ha), andb_true_r.
  destruct a as [|d a]; [|exact Hc].
  apply orb_true_iff in Hc. apply orb_true_iff.
  destruct Hc as [Hc|Hc]; [now left|right].
  apply andb_true_iff in Hc. now rewrite (proj1 Hc).
Qed.

Lemma strip_single_spaced s :
  single_spaced s = true -> single_spaced (strip s) = true.
Proof.
  intros H. destruct (strip_infix s) as (a & b & Hs). rewrite Hs in H.
  apply single_spaced_suffix in H. now apply single_spaced_prefix in H.
Qed.

Lemma clean_text_single_spaced (label : pystr) :
  single_spaced (clean_text label) = true.
Proof.
  unfold clean_text. apply strip_single_spaced. unfold sub.
  exact (proj1 (collapse_spaces _ _ 0 (le_n _))).
Qed.

Lemma single_spaced_chars s :
  single_spaced s = true ->
  (forall c, In c s -> isspace c = true -> c = 32%N)
  /\ (forall a c d b, s = a ++ c :: d :: b -> isspace c = true ->
      isspace d = false).
Proof.
  intros H. split.
  - induction s as [|e s IH]; [contradiction|]. cbn [single_spaced] in H.
    apply andb_true_iff in H. destruct H as [He Hs].
    intros c [<-|Hin] Hc; [|exact (IH Hs c Hin Hc)].
    rewrite Hc in He. cbn [negb orb] in He. apply andb_true_iff in He.
    destruct He as [He _]. now apply N.eqb_eq in He.
  - intros a c d b -> Hc. apply single_spaced_suffix in H.
    cbn [single_spaced] in H. rewrite Hc in H. cbn [negb orb] in H.
    apply andb_true_iff in H. destruct H as [H _].
    apply andb_true_iff in H. destruct H as [_ H].
    now apply negb_true_iff in H.
Qed.

(** X17.  A cleaned title has no white space at its ends, its only white
    space characters are spaces (no tab, no newline), and no two of them
    stand next to each other. *)
Theorem clean_text_spacing (label : pystr) :
  trimmed (clean_text label)
  /\ (forall c, In c (clean_text label) -> isspace c = true -> c = 32%N)
  /\ (forall a c d b, clean_text label = a ++ c :: d :: b ->
      isspace c = true -> isspace d = false).
Proof.
  split; [apply clean_text_trimmed|].
  apply single_spaced_chars, clean_text_single_spaced.
Qed.

End Whitespace.

(** ** Labels of the form [Artist - Title] *)

Section Hyphen.
Implicit Types (a b s : pystr) (p : N -> bool).

Lemma leading_app_all p (x y : pystr) :
  forallb p x = true -> leading p (x ++ y) = length x + leading p y.
Proof.
  induction x as [|c x IH]; [reflexivity|]. cbn [forallb app leading length].
  intros H. apply andb_true_iff in H. destruct H as [-> H].
  now rewrite (IH H).
Qed.

Lemma leading_app_stop p (x y : pystr) c :
  p c = false -> leading p (x ++ c :: y) <= length x.
Proof.
  intros Hc. induction x as [|d x IH]; cbn [app leading length].
  - now rewrite Hc.
  - destruct (p d); lia.
Qed.

Lemma lookup_nat_head {A} (g : nat) (x : A) (l : list (nat * A)) :
  lookup_nat g ((g, x) :: l) = Some x.
Proof. unfold lookup_nat. cbn. now rewrite Nat.eqb_refl. Qed.

Lemma hyphen_literal c : lit_match true 45 c = true -> c = 45%N.
Proof.
  unfold lit_match, ascii_lower. cbn.
  rewrite !orb_false_r. intros H. apply N.eqb_eq in H.
  destruct ((65 <=? c) && (c <=? 90))%N eqn:E; [|exact H].
  apply andb_true_iff in E. destruct E as [E1 E2].
  apply N.leb_le in E1, E2. lia.
Qed.

Lemma hyphen_tail_match ws1 ws2 b (i : nat) o sp :
  forallb isspace ws1 = true -> forallb isspace ws2 = true ->
  b <> [] -> (forall c y, b = c :: y -> isspace c = false) ->
  forallb (cset_mem true CAny) b = true ->
  run true hyphen_tail (MState i (ws1 ++ 45%N :: ws2 ++ b) o sp)
  = Some (MState (i + length ws1 + 1 + length ws2 + length b) []
                 ((2, i + length ws1 + 1 + length ws2) :: o)
                 ((2, (i + length ws1 + 1 + length ws2,
                       i + length ws1 + 1 + length ws2 + length b)) :: sp)).
Proof.
  intros H1 H2 Hb Hhead Hany. unfold hyphen_tail, star, plus.
  cbn [run pos rest opened spans].
  change (cset_mem true CSpace) with isspace.
  assert (L1 : leading isspace (ws1 ++ 45%N :: ws2 ++ b) = length ws1).
  { rewrite leading_app_all by exact H1. cbn. lia. }
  apply rep_greedy_max; rewrite L1; [lia|]. rewrite drop_app_length.
  cbn [run pos rest opened spans cset_mem].
  replace (lit_match true 45 45) with true by reflexivity.
  change (cset_mem true CSpace) with isspace.
  assert (L2 : leading isspace (ws2 ++ b) = length ws2).
  { rewrite leading_app_all by exact H2. destruct b as [|c y]; [easy|].
    cbn [leading]. rewrite (Hhead c y eq_refl). lia. }
  apply rep_greedy_max; rewrite L2; [lia|]. rewrite drop_app_length.
  cbn [run pos rest opened spans].
  assert (L3 : leading (cset_mem true CAny) b = length b).
  { rewrite <- (app_nil_r b) at 1. rewrite leading_app_all by exact Hany.
    cbn. lia. }
  apply rep_greedy_max; rewrite L3; [destruct b; [easy|cbn; lia]|].
  rewrite drop_all. cbn [run pos rest opened spans].
  rewrite lookup_nat_head. repeat f_equal; lia.
Qed.

(** Group 1 cannot end inside the artist: the next character that is not
    white space is not a hyphen. *)
Lemma hyphen_tail_fails a (rest_of : pystr) (n : nat) o sp :
  ~ In 45%N a -> (forall c y, a = y ++ [c] -> isspace c = false) ->
  n < length a ->
  run true hyphen_tail (MState n (drop n (a ++ rest_of)) o sp) = None.
Proof.
  intros Hno Hlast Hn. unfold hyphen_tail, star.
  cbn [run pos rest opened spans].
  change (cset_mem true CSpace) with isspace.
  rewrite drop_app_le by lia.
  destruct (exists_last (l := drop n a)) as (x & z & Hx).
  { intros H. apply (f_equal length) in H. rewrite length_drop in H.
    cbn in H. lia. }
  assert (Hz : isspace z = false).
  { apply (Hlast z (take n a ++ x)).
    rewrite <- app_assoc, <- Hx. symmetry. apply take_drop. }
  rewrite Hx, <- app_assoc. cbn [app].
  apply rep_none. intros m Hm.
  pose proof (leading_app_stop isspace x rest_of z Hz) as Hle.
  rewrite drop_app_le by lia.
  cbn [run pos rest opened spans].
  destruct (drop m x ++ z :: rest_of) as [|c s'] eqn:Hd; [reflexivity|].
  destruct (cset_mem true (CLit 45) c) eqn:Hc; [|reflexivity].
  exfalso. apply hyphen_literal in Hc. subst c. apply Hno.
  assert (Hin : In 45%N (drop m x ++ [z])).
  { destruct (drop m x) as [|e x']; cbn [app] in Hd |- *.
    - injection Hd as -> _. now left.
    - injection Hd as -> _. now left. }
  rewrite <- (take_drop n a), Hx. apply in_app_iff. right.
  rewrite <- (take_drop m x), <- app_assoc. apply in_app_iff. now right.
Qed.

(** The hyphen pattern on [a ws1 - ws2 b]. *)
Lemma hyphen_match a ws1 ws2 b :
  a <> [] -> b <> [] -> ~ In 45%N a ->
  (forall c y, a = y ++ [c] -> isspace c = false) ->
  (forall c y, b = c :: y -> isspace c = false) ->
  forallb isspace ws1 = true -> forallb isspace ws2 = true ->
  forallb (cset_mem true CAny) (a ++ ws1 ++ 45%N :: ws2 ++ b) = true ->
  re_match true
    (two_sides ([star CSpace] ++ lit "-" ++ [star CSpace]))
    (a ++ ws1 ++ 45%N :: ws2 ++ b)
  = Some [a; b].
Proof.
  intros Ha Hb Hno Hlast Hhead H1 H2 Hany.
  set (label := a ++ ws1 ++ 45%N :: ws2 ++ b).
  assert (Hanyb : forallb (cset_mem true CAny) b = true).
  { unfold label in Hany. rewrite !forallb_app in Hany. cbn in Hany.
    rewrite forallb_app in Hany.
    repeat (apply andb_true_iff in Hany; destruct Hany as [? Hany]).
    exact Hany. }
  assert (Hrun : run true
            (two_sides ([star CSpace] ++ lit "-" ++ [star CSpace]))
            (MState 0 label [] [])
          = Some (MState (length a + length ws1 + 1 + length ws2 + length b)
                    []
                    [(2, length a + length ws1 + 1 + length ws2); (1, 0)]
                    [(2, (length a + length ws1 + 1 + length ws2,
                          length a + length ws1 + 1 + length ws2 + length b));
                     (1, (0, length a))])).
  { replace (two_sides ([star CSpace] ++ lit "-" ++ [star CSpace]))
      with (Bol :: Open 1 :: Rep CAny 1 false :: Close 1 :: hyphen_tail)
      by reflexivity.
    cbn [run pos rest opened spans Nat.eqb].
    apply (rep_lazy_first _ _ _ _ (length a)).
    - split; [destruct a; [easy|cbn; lia]|].
      rewrite <- (app_nil_r label) at 1.
      rewrite leading_app_all by exact Hany. unfold label.
      rewrite length_app. lia.
    - intros n' Hn'. cbn [run pos rest opened spans].
      rewrite lookup_nat_head. cbn [Nat.add].
      unfold label. apply hyphen_tail_fails; [exact Hno|exact Hlast|lia].
    - cbn [run pos rest opened spans].
      rewrite lookup_nat_head. cbn [Nat.add].
      unfold label. rewrite drop_app_length.
      now apply hyphen_tail_match. }
  unfold re_match, match_at. rewrite Hrun.
  cbn [fmap option_fmap option_map]. unfold groups.
  change (ngroups _) with 2.
  cbn [seq map lookup_nat find fst snd spans Nat.eqb fmap option_fmap
       option_map].
  unfold slice, label. rewrite Nat.sub_0_r, drop_0, take_app_length.
  assert (Hd : drop (length a + length ws1 + 1 + length ws2)
                    (a ++ ws1 ++ 45%N :: ws2 ++ b) = b).
  { replace (length a + length ws1 + 1 + length ws2)
      with (length a + (length ws1 + (1 + length ws2))) by lia.
    rewrite drop_app_add' by reflexivity.
    rewrite drop_app_add' by reflexivity.
    cbn [Nat.add skipn]. apply drop_app_length. }
  rewrite Hd. do 3 f_equal. apply take_ge. lia.
Qed.

(** X18.  On a label that [clean_text] leaves as it is, made of an artist
    without hyphen, a hyphen with optional white space around it, and a
    title, [parse_title] returns that artist and that title.  (The artist
    and the title are not empty and have no white space at their ends.) *)
Theorem parse_title_hyphen a ws1 ws2 b :
  let label := a ++ ws1 ++ py "-" ++ ws2 ++ b in
  clean_text label = label ->
  a <> [] -> b <> [] -> ~ In 45%N a ->
  trimmed a -> trimmed b ->
  forallb isspace ws1 = true -> forallb isspace ws2 = true ->
  parse_title label = (a, b).
Proof.
  intros label Hclean Ha Hb Hno Hta Htb H1 H2.
  assert (Hany : forallb (cset_mem true CAny) label = true).
  { apply forallb_forall. intros c Hc. cbn. apply negb_true_iff.
    apply N.eqb_neq. intros ->.
    destruct (single_spaced_chars _ (clean_text_single_spaced label))
      as (Hsp & _).
    rewrite Hclean in Hsp. now specialize (Hsp 10%N Hc eq_refl). }
  unfold parse_title. rewrite Hclean. unfold patterns.
  erewrite parse_loop_hit
    by (cbn [prog]; exact (hyphen_match a ws1 ws2 b Ha Hb Hno (proj2 Hta)
                             (proj1 Htb) H1 H2 Hany)).
  cbn [source]. replace (contains _ _) with false by reflexivity.
  now rewrite (trimmed_strip a Hta), (trimmed_strip b Htb).
Qed.

End Hyphen.

Lemma parse_title_hyphen_witness :
  parse_title (py "The Beatles" ++ py " " ++ py "-" ++ py " " ++ py "Hey Jude")
  = (py "The Beatles", py "Hey Jude").
Proof.
  apply (parse_title_hyphen (py "The Beatles") (py " ") (py " ")
           (py "Hey Jude")); try (vm_compute; reflexivity);
    try discriminate.
  - vm_compute. intuition discriminate.
  - split; intros c y H.
    + now injection H as <- _.
    + change (py "The Beatles") with (py "The Beatle" ++ [115%N]) in H.
      apply app_inj_tail in H. now destruct H as [_ <-].
  - split; intros c y H.
    + now injection H as <- _.
    + change (py "Hey Jude") with (py "Hey Jud" ++ [101%N]) in H.
      apply app_inj_tail in H. now destruct H as [_ <-].
Defined.

(** ** The URL check and the playlist id *)

Lemma contains_spec (needle hay : pystr) :
  contains needle hay = true <-> exists pre post, hay = pre ++ needle ++ post.
Proof.
  induction hay as [|c hay IH].
  - cbn [contains]. rewrite orb_false_r, startswith_app. split.
    + intros (s' & H). exists [], s'. exact H.
    + intros ([|? ?] & post & H); [eauto|discriminate].
  - cbn [contains]. rewrite orb_true_iff, startswith_app, IH. split.
    + intros [(s' & H)|(pre & post & ->)].
      * exists [], s'. exact H.
      * exists (c :: pre), post. reflexivity.
    + intros ([|d pre] & post & H).
      * left. eauto.
      * injection H as <- H. right. eauto.
Qed.

(** X19.  A URL from which [extract_playlist_id] gets an id passes the
    check of [get_user_input] exactly when it contains [youtube.com]: with
    it the URL is accepted whatever else it holds, without it the URL is
    refused at the prompt although it names a playlist. *)
Theorem url_with_id_is_accepted (youtube_url id : pystr) :
  extract_playlist_id youtube_url = Some id ->
  url_accepted youtube_url = contains (py "youtube.com") youtube_url.
Proof.
  intros Hid. unfold url_accepted.
  rewrite extract_first_id in Hid.
  pose proof (first_id_spec youtube_url) as H. rewrite Hid in H.
  destruct H as (_ & _ & pre & post & Hurl & _).
  assert (Hl : contains (py "list=") youtube_url = true).
  { apply contains_spec. exists pre, (id ++ post). exact Hurl. }
  rewrite Hl, orb_true_r, andb_true_r.
  destruct youtube_url; [now destruct pre|reflexivity].
Qed.

Lemma url_with_id_is_accepted_witness :
  url_accepted sample_url = true
  /\ url_accepted (py "https://youtu.be/x?list=PL_x1-a") = false.
Proof.
  split.
  - rewrite (url_with_id_is_accepted sample_url (py "PL_x1-a"));
      vm_compute; reflexivity.
  - rewrite (url_with_id_is_accepted (py "https://youtu.be/x?list=PL_x1-a")
               (py "PL_x1-a"));
      vm_compute; reflexivity.
Defined.

(** ** The videos of a playlist *)

Section Pages.
Import Pagination.
Variable fetch : list (option pystr) -> option pystr -> page_reply.

Lemma page_videos_listed (items : list item) :
  Forall listed_title (map video_of (List.filter is_listed items)).
Proof.
  induction items as [|it items IH]; [constructor|]. cbn [List.filter].
  destruct (is_listed it) eqn:Hl; [|exact IH]. cbn [map].
  constructor; [|exact IH]. unfold is_listed, str_eqb in Hl.
  apply andb_true_iff in Hl. destruct Hl as [H1 H2].
  apply negb_true_iff, bool_decide_eq_false in H1, H2. now split.
Qed.

Lemma pages_spec (fuel : nat) :
  forall token asked videos result,
  Forall listed_title videos ->
  pages fetch fuel token asked videos = Some result ->
  Forall listed_title result
  /\ (exists more, result = videos ++ more)
  /\ forall fuel', fuel <= fuel' ->
       pages fetch fuel' token asked videos = Some result.
Proof.
  induction fuel as [|fuel IH]; intros token asked videos result Hv;
    [discriminate|].
  cbn [pages].
  destruct (fetch asked token) as [|items next] eqn:Hf.
  - intros [= <-]. split; [exact Hv|]. split; [exists []; now rewrite app_nil_r|].
    intros [|fuel'] Hle; [lia|]. cbn [pages]. now rewrite Hf.
  - assert (Hv' : Forall listed_title
                    (videos ++ map video_of (List.filter is_listed items))).
    { apply Forall_app. split; [exact Hv|apply page_videos_listed]. }
    destruct next as [[|c t]|].
    + intros [= <-]. split; [exact Hv'|]. split; [eauto|].
      intros [|fuel'] Hle; [lia|]. cbn [pages]. now rewrite Hf.
    + intros H. destruct (IH _ _ _ _ Hv' H) as (Hr & (more & ->) & Hfuel).
      split; [exact Hr|]. split; [rewrite <- app_assoc; eauto|].
      intros [|fuel'] Hle; [lia|]. cbn [pages]. rewrite Hf.
      apply Hfuel. lia.
    + intros [= <-]. split; [exact Hv'|]. split; [eauto|].
      intros [|fuel'] Hle; [lia|]. cbn [pages]. now rewrite Hf.
Qed.

(** The loop returns within [n + 1] turns when the request made after [n]
    earlier ones of the loop gets a last page. *)
Lemma pages_return (n : nat) :
  forall token asked videos,
  (forall asked' token',
     length asked' = length asked + n -> is_last (fetch asked' token') = true) ->
  exists result, pages fetch (S n) token asked videos = Some result.
Proof.
  induction n as [|n IH]; intros token asked videos Hlast; cbn [pages].
  - specialize (Hlast asked token ltac:(lia)).
    destruct (fetch asked token) as [|items [[|c t]|]]; eauto; discriminate.
  - destruct (fetch asked token) as [|items [[|c t]|]]; eauto.
    apply IH. intros asked' token' Hlen. apply Hlast.
    rewrite Hlen, length_app. cbn [length]. lia.
Qed.

(** X20.  When the request that follows [n] requests of a listing gets a
    last page (a failure, or a page without a next-page token), whatever was
    asked before, [get_playlist_videos] returns within [n + 1] requests, and
    allowing the loop more turns does not change what it returns.  None of
    the videos returned is titled "Deleted video" or "Private video",
    whatever the pages hold.  When the first request fails, the list returned
    is empty. *)
Theorem listed_videos_only (n : nat) :
  (forall asked token,
     length asked = n -> is_last (fetch asked token) = true) ->
  exists videos,
    (forall fuel, n < fuel -> get_playlist_videos fetch fuel = Some videos)
    /\ Forall listed_title videos
    /\ (fetch [] None = PageFailed -> videos = []).
Proof.
  intros Hlast. unfold get_playlist_videos.
  destruct (pages_return n None [] [] Hlast) as (videos & H).
  assert (H0 : Forall listed_title []) by constructor.
  destruct (pages_spec (S n) None [] [] videos H0 H) as (Hl & _ & Hfuel).
  exists videos. split; [intros fuel Hf; apply Hfuel; lia|].
  split; [exact Hl|].
  intros Hf. cbn [pages] in H. rewrite Hf in H. now injection H as <-.
Qed.

End Pages.

Lemma listed_videos_only_witness :
  exists videos,
    (forall fuel, 1 < fuel ->
       Pagination.get_playlist_videos
         (fun asked token =>
            match asked with
            | [] =>
                Pagination.Page
                  [Pagination.mkItem (py "Deleted video") None;
                   Pagination.mkItem (py "Adele - Hello")
                                     (Some (py "Adele - Topic"))]
                  (Some (py "t2"))
            | _ :: _ =>
                Pagination.Page [Pagination.mkItem (py "Private video") None]
                                None
            end) fuel
       = Some videos)
    /\ Forall Pagination.listed_title videos
    /\ videos = [mkVideo (py "Adele - Hello") (py "Adele")].
Proof.
  destruct (listed_videos_only
              (fun asked token =>
                 match asked with
                 | [] =>
                     Pagination.Page
                       [Pagination.mkItem (py "Deleted video") None;
                        Pagination.mkItem (py "Adele - Hello")
                                          (Some (py "Adele - Topic"))]
                       (Some (py "t2"))
                 | _ :: _ =>
                     Pagination.Page
                       [Pagination.mkItem (py "Private video") None] None
                 end) 1) as (videos & Hret & Hl & _).
  - intros [|a asked] token Hlen; [discriminate|reflexivity].
  - exists videos. split; [exact Hret|]. split; [exact Hl|].
    specialize (Hret 2 ltac:(lia)). vm_compute in Hret.
    now injection Hret as <-.
Defined.
